(** * FPGAG core: SPI parser, polynomial integrator and dispatcher

    A shallow embedding of [src/FPGAG/core.py].  The three nMigen
    modules ([SPIParser], [Polynomal], [Dispatcher]) are synchronous
    circuits: every register takes, at the clock edge, the value its
    last active [m.d.sync] assignment computes from the values the
    registers hold before the edge.  Each module is therefore one
    function from the present registers and inputs to the next
    registers; combinational outputs ([m.d.comb]) are functions of the
    present registers. *)

From Stdlib Require Import ZArith Lia Bool List.
From stdpp Require Import base list.
Import ListNotations.
Local Open Scope Z_scope.

(** ** nMigen values

    A [Signal] of width [w] holds an integer; arithmetic on values is
    exact and an assignment keeps the low [w] bits of what it is given,
    read back unsigned ([trunc]) or in two's complement ([wrap]). *)
Module Signal.

(** Assignment to an unsigned signal of [w] bits. *)
Definition trunc (w x : Z) : Z := x mod 2 ^ w.

(** Assignment to a [signed(w)] signal. *)
Definition wrap (w x : Z) : Z := (x + 2 ^ (w - 1)) mod 2 ^ w - 2 ^ (w - 1).

(** Python's [int.bit_length]. *)
Definition bit_length (x : Z) : Z :=
  if x =? 0 then 0 else Z.log2 (Z.abs x) + 1.

(** Width of [Signal(range(n))]: enough bits for [0] and for [n - 1]. *)
Definition range_width (n : Z) : Z :=
  if n <=? 0 then 0 else Z.max 1 (bit_length (n - 1)).

(** [x[i].eq(b)]: assignment to one bit of a signal. *)
Definition assign_bit (x i : Z) (b : bool) : Z :=
  if b then Z.setbit x i else Z.clearbit x i.

(** The bits of a [w]-bit value, least significant first. *)
Definition bits (w : nat) (x : Z) : list bool :=
  map (fun i => Z.testbit x (Z.of_nat i)) (seq 0 w).

(** The value of a list of bits, least significant first: what [Cat]
    of one-bit values builds (its first argument is the lowest bit). *)
Fixpoint from_bits (l : list bool) : Z :=
  match l with
  | [] => 0
  | b :: r => Z.b2z b + 2 * from_bits r
  end.

(** [x[::-1]] on a [w]-bit value is [Cat(x[w-1], ..., x[0])]. *)
Definition reversed (w : nat) (x : Z) : list bool := rev (bits w x).

(** Reading [arr[i]] with a signal as index: an index past the end
    selects the last element. *)
Definition select (arr : list Z) (i : Z) : Z :=
  default 0 (arr !! Nat.min (Z.to_nat i) (length arr - 1)).

(** Reading [arr[i]] with a Python integer as index. *)
Definition get (arr : list Z) (i : nat) : Z := default 0 (arr !! i).

Definition getb (arr : list bool) (i : nat) : bool := default false (arr !! i).

End Signal.

(** ** Constants and platform

    [FPGAG.constants] and the platform object are not part of the
    sources; their values are parameters of the development. *)
Record Config : Type := {
  WORD_BYTES : Z;        (* constants.WORD_BYTES *)
  MEMWIDTH : Z;          (* constants.MEMWIDTH *)
  BIT_SHIFT : Z;         (* constants.BIT_SHIFT *)
  MOVE_TICKS : Z;        (* constants.MOVE_TICKS *)
  MOVE : Z;              (* constants.INSTRUCTIONS.MOVE *)
  motors : nat;          (* platform.motors *)
  bytesinmove : Z;       (* platform.bytesinmove *)
  divider : Z            (* Polynomal(divider=...) *)
}.

(** Modelled from the spec: the bit positions of [constants.STATE],
    which is missing from the sources; the spec gives the status
    register as bit0=PARSING, bit1=FULL, bit2=DISPATCHERROR. *)
Module STATE.
Definition PARSING : Z := 0.
Definition FULL : Z := 1.
Definition DISPATCHERROR : Z := 2.
End STATE.

(** Modelled from the spec: the opcodes of [constants.COMMANDS], which
    is missing from the sources.  The spec lists them as distinct
    opcodes; [OTHER] stands for every command value that equals none of
    them, so the [If]/[Elif] chain on [interface.command] is a match. *)
Module COMMANDS.
Inductive t : Type := EMPTY | START | STOP | WRITE | READ | POSITION | OTHER.
End COMMANDS.

(** ** Polynomal: the trajectory integrator *)
Module Polynomal.

Inductive fsm : Type := RESET | WAIT_START | RUNNING.

(** Registers of the module.  [cntrs] is the flat array of
    [3 * motors] accumulators: index [3 * motor] is the position,
    [3 * motor + 1] and [3 * motor + 2] its two difference terms. *)
Record t : Type := {
  polynomen : fsm;
  cntr : Z;
  ticks : Z;
  cntrs : list Z;
  counter_d : list Z;
  dir : list bool;
  busy : bool;
  finished : bool
}.

(** Input signals, driven from outside the module. *)
Record inputs : Type := {
  coeff : list Z;
  start : bool;
  ticklimit : Z
}.

Section WithConfig.
Context (cfg : Config).

(** [self.order = DEGREE], asserted to be 3. *)
Definition order : nat := 3.
Definition max_steps : Z := MOVE_TICKS cfg / 2.
Definition max_bits : Z :=
  Signal.bit_length (Z.shiftl max_steps (BIT_SHIFT cfg)).
(** Width of [cntrs] and [counter_d]: [signed(max_bits+1)]. *)
Definition cntrs_width : Z := max_bits + 1.
(** Width of [totalsteps]: [signed(max_steps.bit_length()+1)]. *)
Definition totalsteps_width : Z := Signal.bit_length max_steps + 1.
(** Width of [ticks] and [ticklimit]. *)
Definition ticks_width : Z := Signal.bit_length (MOVE_TICKS cfg).
Definition cntr_width : Z := Signal.range_width (divider cfg).

Definition axes : list nat := seq 0 (motors cfg).

Definition reset : t := {|
  polynomen := RESET;
  cntr := 0;
  ticks := 0;
  cntrs := replicate (order * motors cfg) 0;
  counter_d := replicate (motors cfg) 0;
  dir := replicate (motors cfg) false;
  busy := false;
  finished := false
|}.

(** Combinational outputs. *)
Definition step (s : t) : list bool :=
  map (fun motor =>
         Z.testbit (Signal.get (cntrs s) (motor * order)) (BIT_SHIFT cfg))
      axes.

Definition totalsteps (s : t) : list Z :=
  map (fun motor =>
         Signal.wrap totalsteps_width
           (Z.shiftr (Signal.get (cntrs s) (motor * order))
                     (BIT_SHIFT cfg + 1)))
      axes.

(** The three sums of the RUNNING state, over the present values. *)
Definition op3 (c k : list Z) (idx : nat) : Z :=
  3 * 2 * Signal.get c (idx + 2) + Signal.get k (idx + 2).
Definition op2 (c k : list Z) (idx : nat) : Z :=
  Signal.get k (idx + 2) + 2 * Signal.get c (idx + 1)
  + Signal.get k (idx + 1).
Definition op1 (c k : list Z) (idx : nat) : Z :=
  Signal.get c (idx + 2) + Signal.get c (idx + 1) + Signal.get c idx
  + Signal.get k (idx + 2) + Signal.get k (idx + 1) + Signal.get k idx.

(** One motor's assignments of a real-time tick: the right-hand
    sides read the present accumulators [k]. *)
Definition advance_motor (c k : list Z) (acc : list Z) (motor : nat)
  : list Z :=
  let idx := (motor * order)%nat in
  <[idx := Signal.wrap cntrs_width (op1 c k idx)]>
    (<[(idx + 1)%nat := Signal.wrap cntrs_width (op2 c k idx)]>
       (<[(idx + 2)%nat := Signal.wrap cntrs_width (op3 c k idx)]> acc)).

Definition advance (c k : list Z) : list Z :=
  foldl (advance_motor c k) k axes.

(** The value a real-time tick assigns to accumulator [j] of an
    axis, for reference in the statements below. *)
Definition advanced (c k : list Z) (motor j : nat) : Z :=
  Signal.wrap cntrs_width
    (match j with
     | O => op1 c k (motor * order)
     | S O => op2 c k (motor * order)
     | _ => op3 c k (motor * order)
     end).

(** The polynomial of the class docstring, [c*x^3+b*x^2+a*x]: the
    analytic value the accumulators are compared with. *)
Definition polynomial (a b c x : Z) : Z := a * x + b * x ^ 2 + c * x ^ 3.

(** [cntrs[coef0].eq(0)] for every motor, on [start]. *)
Definition clear_position (k : list Z) : list Z :=
  foldl (fun acc motor => <[(motor * order)%nat := 0]> acc) k axes.

(** The direction registers, assigned outside the FSM. *)
Definition next_dir (s : t) : list bool :=
  map (fun motor =>
         let d := Signal.get (counter_d s) motor in
         let p := Signal.get (cntrs s) (motor * order) in
         if d >? p then false
         else if d <? p then true
         else Signal.getb (dir s) motor)
      axes.

Definition next_counter_d (s : t) : list Z :=
  map (fun motor => Signal.get (cntrs s) (motor * order)) axes.

(** One clock edge. *)
Definition tick (i : inputs) (s : t) : t :=
  match polynomen s with
  | RESET =>
      {| polynomen := WAIT_START;
         cntr := cntr s;
         ticks := ticks s;
         cntrs := cntrs s;
         counter_d := next_counter_d s;
         dir := next_dir s;
         busy := false;
         finished := false |}
  | WAIT_START =>
      if start i then
        {| polynomen := RUNNING;
           cntr := cntr s;
           ticks := ticks s;
           cntrs := clear_position (cntrs s);
           counter_d := replicate (motors cfg) 0;
           dir := next_dir s;
           busy := true;
           finished := false |}
      else
        {| polynomen := WAIT_START;
           cntr := cntr s;
           ticks := ticks s;
           cntrs := cntrs s;
           counter_d := next_counter_d s;
           dir := next_dir s;
           busy := busy s;
           finished := false |}
  | RUNNING =>
      if (ticks s <? ticklimit i) && (divider cfg - 1 <=? cntr s) then
        {| polynomen := RUNNING;
           cntr := 0;
           ticks := Signal.trunc ticks_width (ticks s + 1);
           cntrs := advance (coeff i) (cntrs s);
           counter_d := next_counter_d s;
           dir := next_dir s;
           busy := busy s;
           finished := finished s |}
      else if ticks s <? ticklimit i then
        {| polynomen := RUNNING;
           cntr := Signal.trunc cntr_width (cntr s + 1);
           ticks := ticks s;
           cntrs := cntrs s;
           counter_d := next_counter_d s;
           dir := next_dir s;
           busy := busy s;
           finished := finished s |}
      else
        {| polynomen := WAIT_START;
           cntr := cntr s;
           ticks := 0;
           cntrs := cntrs s;
           counter_d := next_counter_d s;
           dir := next_dir s;
           busy := false;
           finished := true |}
  end.

(** [n] clock edges with the inputs held. *)
Fixpoint run (n : nat) (i : inputs) (s : t) : t :=
  match n with
  | O => s
  | S n' => run n' i (tick i s)
  end.

(** A run over a list of inputs, one per clock edge. *)
Definition runs (ins : list inputs) (s : t) : t :=
  foldl (fun s i => tick i s) s ins.

Definition reachable (s : t) : Prop := exists ins, s = runs ins reset.

(** The handshake registers, state by state. *)
Definition handshake (s : t) : Prop :=
  (busy s = true <-> polynomen s = RUNNING)
  /\ (finished s = true -> polynomen s = WAIT_START)
  /\ (polynomen s <> RUNNING -> ticks s = 0).

(** Every accumulator is a value of [signed(max_bits+1)]. *)
Definition in_width (s : t) : Prop :=
  Forall (fun x => - 2 ^ max_bits <= x < 2 ^ max_bits) (cntrs s).

End WithConfig.
End Polynomal.

(** ** SPIParser: the command processor *)
Module SPIParser.

Inductive fsm : Type := RESET | WAIT_COMMAND | WAIT_WORD | WRITE.

(** Registers written by the module: its own, the word the SPI
    interface sends back, and the write port of the FIFO. *)
Record t : Type := {
  parser : fsm;
  state : Z;
  execute : bool;
  mtrcntr : Z;
  bytesreceived : Z;
  word_to_send : Z;
  write_en : bool;
  write_data : Z;
  write_commit : bool
}.

(** What the module reads and does not drive: the strobes and data of
    the SPI command interface, the FIFO's free space, and the signals
    its owner connects ([position], [pinstate], [dispatcherror]). *)
Record inputs : Type := {
  command_ready : bool;
  command : COMMANDS.t;
  word_complete : bool;
  word_received : Z;
  space_available : Z;
  position : list Z;
  pinstate : Z;
  dispatcherror : bool
}.

Section WithConfig.
Context (cfg : Config).

Definition word_size : Z := WORD_BYTES cfg * 8.
Definition mtrcntr_width : Z := Signal.range_width (Z.of_nat (motors cfg)).
Definition bytesreceived_width : Z :=
  Signal.range_width (bytesinmove cfg + 1).

(** [ceil(platform.bytesinmove/WORD_BYTES)], on integers. *)
Definition words_in_move : Z :=
  (bytesinmove cfg + WORD_BYTES cfg - 1) / WORD_BYTES cfg.

Definition reset : t := {|
  parser := RESET;
  state := 0;
  execute := false;
  mtrcntr := 0;
  bytesreceived := 0;
  word_to_send := 0;
  write_en := false;
  write_data := 0;
  write_commit := false
|}.

(** The peripheral state register, assigned at every edge. *)
Definition next_state (i : inputs) (s : t) : Z :=
  Signal.assign_bit
    (Signal.assign_bit
       (Signal.assign_bit (state s) STATE.PARSING (execute s))
       STATE.FULL (space_available i <? words_in_move))
    STATE.DISPATCHERROR (dispatcherror i).

(** [Cat(state[::-1], self.pinstate[::-1])]. *)
Definition word (i : inputs) (s : t) : Z :=
  Signal.from_bits
    (Signal.reversed 8 (state s) ++ Signal.reversed 8 (pinstate i)).

(** One clock edge. *)
Definition tick (i : inputs) (s : t) : t :=
  match parser s with
  | RESET =>
      {| parser := WAIT_COMMAND;
         state := next_state i s;
         execute := false;
         mtrcntr := mtrcntr s;
         bytesreceived := 0;
         word_to_send := word_to_send s;
         write_en := write_en s;
         write_data := write_data s;
         write_commit := write_commit s |}
  | WAIT_COMMAND =>
      if command_ready i then
        match command i with
        | COMMANDS.START =>
            {| parser := WAIT_COMMAND;
               state := next_state i s;
               execute := true;
               mtrcntr := mtrcntr s;
               bytesreceived := bytesreceived s;
               word_to_send := word_to_send s;
               write_en := write_en s;
               write_data := write_data s;
               write_commit := false |}
        | COMMANDS.STOP =>
            {| parser := WAIT_COMMAND;
               state := next_state i s;
               execute := false;
               mtrcntr := mtrcntr s;
               bytesreceived := bytesreceived s;
               word_to_send := word_to_send s;
               write_en := write_en s;
               write_data := write_data s;
               write_commit := false |}
        | COMMANDS.WRITE =>
            {| parser :=
                 if negb (Z.testbit (state s) STATE.FULL)
                    || negb (bytesreceived s =? 0)
                 then WAIT_WORD else WAIT_COMMAND;
               state := next_state i s;
               execute := execute s;
               mtrcntr := mtrcntr s;
               bytesreceived := bytesreceived s;
               word_to_send := Signal.trunc word_size (word i s);
               write_en := write_en s;
               write_data := write_data s;
               write_commit := false |}
        | COMMANDS.READ =>
            {| parser := WAIT_COMMAND;
               state := next_state i s;
               execute := execute s;
               mtrcntr := mtrcntr s;
               bytesreceived := bytesreceived s;
               word_to_send := Signal.trunc word_size (word i s);
               write_en := write_en s;
               write_data := write_data s;
               write_commit := false |}
        | COMMANDS.POSITION =>
            {| parser := WAIT_COMMAND;
               state := next_state i s;
               execute := execute s;
               mtrcntr :=
                 if mtrcntr s <? Z.of_nat (motors cfg)
                 then Signal.trunc mtrcntr_width (mtrcntr s + 1)
                 else 0;
               bytesreceived := bytesreceived s;
               word_to_send :=
                 Signal.trunc word_size
                   (Signal.select (position i) (mtrcntr s));
               write_en := write_en s;
               write_data := write_data s;
               write_commit := false |}
        | COMMANDS.EMPTY | COMMANDS.OTHER =>
            {| parser := WAIT_COMMAND;
               state := next_state i s;
               execute := execute s;
               mtrcntr := mtrcntr s;
               bytesreceived := bytesreceived s;
               word_to_send := word_to_send s;
               write_en := write_en s;
               write_data := write_data s;
               write_commit := false |}
        end
      else
        {| parser := WAIT_COMMAND;
           state := next_state i s;
           execute := execute s;
           mtrcntr := mtrcntr s;
           bytesreceived := bytesreceived s;
           word_to_send := word_to_send s;
           write_en := write_en s;
           write_data := write_data s;
           write_commit := false |}
  | WAIT_WORD =>
      if word_complete i then
        {| parser := WRITE;
           state := next_state i s;
           execute := execute s;
           mtrcntr := mtrcntr s;
           bytesreceived :=
             Signal.trunc bytesreceived_width
               (bytesreceived s + WORD_BYTES cfg);
           word_to_send := word_to_send s;
           write_en := true;
           write_data := Signal.trunc (MEMWIDTH cfg) (word_received i);
           write_commit := write_commit s |}
      else
        {| parser := WAIT_WORD;
           state := next_state i s;
           execute := execute s;
           mtrcntr := mtrcntr s;
           bytesreceived := bytesreceived s;
           word_to_send := word_to_send s;
           write_en := write_en s;
           write_data := write_data s;
           write_commit := write_commit s |}
  | WRITE =>
      if bytesinmove cfg <=? bytesreceived s then
        {| parser := WAIT_COMMAND;
           state := next_state i s;
           execute := execute s;
           mtrcntr := mtrcntr s;
           bytesreceived := 0;
           word_to_send := word_to_send s;
           write_en := false;
           write_data := write_data s;
           write_commit := true |}
      else
        {| parser := WAIT_COMMAND;
           state := next_state i s;
           execute := execute s;
           mtrcntr := mtrcntr s;
           bytesreceived := bytesreceived s;
           word_to_send := word_to_send s;
           write_en := false;
           write_data := write_data s;
           write_commit := write_commit s |}
  end.

(** A run over a list of inputs, one per clock edge. *)
Definition run (ins : list inputs) (s : t) : t :=
  foldl (fun s i => tick i s) s ins.

Definition reachable (s : t) : Prop := exists ins, s = run ins reset.

(** What holds of the registers between the parser's pulses: the
    commit strobe is high only in WAIT_COMMAND, the write enable only
    in WRITE, and the byte counter is clear and in range. *)
Definition pulses_idle (s : t) : Prop :=
  (write_commit s = true -> parser s = WAIT_COMMAND)
  /\ (write_en s = true -> parser s = WRITE)
  /\ (parser s = RESET -> bytesreceived s = 0)
  /\ 0 <= bytesreceived s.

(** The edges of a run at which a payload word is taken in. *)
Fixpoint accepted (ins : list inputs) (s : t) : Z :=
  match ins with
  | [] => 0
  | i :: r =>
      (match parser s with
       | WAIT_WORD => if word_complete i then 1 else 0
       | _ => 0
       end) + accepted r (tick i s)
  end.

(** The states a run goes through after each of its edges. *)
Fixpoint trace (ins : list inputs) (s : t) : list t :=
  match ins with
  | [] => []
  | i :: r => tick i s :: trace r (tick i s)
  end.

(** The same bus with another command on it. *)
Definition with_command (c : COMMANDS.t) (i : inputs) : inputs := {|
  command_ready := command_ready i;
  command := c;
  word_complete := word_complete i;
  word_received := word_received i;
  space_available := space_available i;
  position := position i;
  pinstate := pinstate i;
  dispatcherror := dispatcherror i
|}.

(** An edge that presents a POSITION command for [motors] axes. *)
Definition position_query (i : inputs) : Prop :=
  command_ready i = true /\ command i = COMMANDS.POSITION
  /\ length (position i) = motors cfg.

End WithConfig.
End SPIParser.

(** ** Dispatcher: the top module

    It instantiates the parser and the integrator and drives the
    signals that connect them.  The FIFO inside the parser and the SPI
    command interface are library components: what they output at an
    edge is an input of the model. *)
Module Dispatcher.

Inductive fsm : Type :=
  RESET | WAIT_INSTRUCTION | PARSEHEAD | MOVE_POLYNOMAL | ERROR.

Record t : Type := {
  parser : SPIParser.t;          (* m.submodules.parser *)
  polynomal : Polynomal.t;       (* m.submodules.polynomal *)
  position : list Z;             (* parser.position *)
  pol_finished_d : bool;
  dispatcher : fsm;
  coeffcnt : Z;
  read_commit : bool;            (* parser.read_commit *)
  read_en : bool;                (* parser.read_en *)
  dispatcherror : bool;          (* parser.dispatcherror *)
  start : bool;                  (* polynomal.start *)
  ticklimit : Z;                 (* polynomal.ticklimit *)
  coeff : list Z                 (* polynomal.coeff *)
}.

Record inputs : Type := {
  command_ready : bool;          (* SPI command interface *)
  command : COMMANDS.t;
  word_complete : bool;
  word_received : Z;
  read_data : Z;                 (* FIFO read port *)
  empty : bool;
  space_available : Z;
  limit : list bool              (* stepper.limit, one per stepper *)
}.

Section WithConfig.
Context (cfg : Config).

(** [len(polynomal.coeff)]. *)
Definition ncoeff : nat := Polynomal.order * motors cfg.
Definition coeffcnt_width : Z := Signal.range_width (Z.of_nat ncoeff).

Definition reset : t := {|
  parser := SPIParser.reset;
  polynomal := Polynomal.reset cfg;
  position := replicate (motors cfg) 0;
  pol_finished_d := false;
  dispatcher := RESET;
  coeffcnt := 0;
  read_commit := false;
  read_en := false;
  dispatcherror := false;
  start := false;
  ticklimit := 0;
  coeff := replicate ncoeff 0
|}.

(** [parser.pinstate[idx].eq(stepper.limit)]. *)
Definition pinstate (i : inputs) : Z := Signal.from_bits (limit i).

(** [stepper.step.eq(polynomal.step[idx] & (stepper.limit == 0))]. *)
Definition stepper_step (i : inputs) (s : t) : list bool :=
  imap (fun idx lim =>
          Signal.getb (Polynomal.step cfg (polynomal s)) idx && negb lim)
       (limit i).

Definition stepper_dir (i : inputs) (s : t) : list bool :=
  imap (fun idx _ => Signal.getb (Polynomal.dir (polynomal s)) idx)
       (limit i).

Definition parser_inputs (i : inputs) (s : t) : SPIParser.inputs := {|
  SPIParser.command_ready := command_ready i;
  SPIParser.command := command i;
  SPIParser.word_complete := word_complete i;
  SPIParser.word_received := word_received i;
  SPIParser.space_available := space_available i;
  SPIParser.position := position s;
  SPIParser.pinstate := pinstate i;
  SPIParser.dispatcherror := dispatcherror s
|}.

Definition polynomal_inputs (s : t) : Polynomal.inputs := {|
  Polynomal.coeff := coeff s;
  Polynomal.start := start s;
  Polynomal.ticklimit := ticklimit s
|}.

(** The position adder, on the rising edge of [finished]. *)
Definition next_position (s : t) : list Z :=
  if negb (pol_finished_d s) && Polynomal.finished (polynomal s) then
    imap (fun idx p =>
            Signal.wrap 64
              (p + Signal.get (Polynomal.totalsteps cfg (polynomal s)) idx))
         (position s)
  else position s.

(** [parser.read_data[:8]] and [parser.read_data[8:]]. *)
Definition opcode (i : inputs) : Z := read_data i mod 2 ^ 8.
Definition header_ticks (i : inputs) : Z := Z.shiftr (read_data i) 8.

(** One clock edge of the whole design. *)
Definition tick (i : inputs) (s : t) : t :=
  let parser' := SPIParser.tick cfg (parser_inputs i s) (parser s) in
  let polynomal' :=
    Polynomal.tick cfg (polynomal_inputs s) (polynomal s) in
  let position' := next_position s in
  let finished_d' := Polynomal.finished (polynomal s) in
  match dispatcher s with
  | RESET =>
      {| parser := parser'; polynomal := polynomal';
         position := position'; pol_finished_d := finished_d';
         dispatcher := WAIT_INSTRUCTION;
         coeffcnt := coeffcnt s;
         read_commit := read_commit s;
         read_en := read_en s;
         dispatcherror := dispatcherror s;
         start := start s;
         ticklimit := ticklimit s;
         coeff := coeff s |}
  | WAIT_INSTRUCTION =>
      if negb (empty i) && SPIParser.execute (parser s)
         && negb (Polynomal.busy (polynomal s)) then
        {| parser := parser'; polynomal := polynomal';
           position := position'; pol_finished_d := finished_d';
           dispatcher := PARSEHEAD;
           coeffcnt := coeffcnt s;
           read_commit := false;
           read_en := true;
           dispatcherror := dispatcherror s;
           start := false;
           ticklimit := ticklimit s;
           coeff := coeff s |}
      else
        {| parser := parser'; polynomal := polynomal';
           position := position'; pol_finished_d := finished_d';
           dispatcher := WAIT_INSTRUCTION;
           coeffcnt := coeffcnt s;
           read_commit := false;
           read_en := read_en s;
           dispatcherror := dispatcherror s;
           start := false;
           ticklimit := ticklimit s;
           coeff := coeff s |}
  | PARSEHEAD =>
      if opcode i =? MOVE cfg then
        {| parser := parser'; polynomal := polynomal';
           position := position'; pol_finished_d := finished_d';
           dispatcher := MOVE_POLYNOMAL;
           coeffcnt := 0;
           read_commit := read_commit s;
           read_en := false;
           dispatcherror := dispatcherror s;
           start := start s;
           ticklimit :=
             Signal.trunc (Polynomal.ticks_width cfg) (header_ticks i);
           coeff := coeff s |}
      else
        {| parser := parser'; polynomal := polynomal';
           position := position'; pol_finished_d := finished_d';
           dispatcher := ERROR;
           coeffcnt := coeffcnt s;
           read_commit := read_commit s;
           read_en := read_en s;
           dispatcherror := true;
           start := start s;
           ticklimit := ticklimit s;
           coeff := coeff s |}
  | MOVE_POLYNOMAL =>
      if negb (read_en s) then
        {| parser := parser'; polynomal := polynomal';
           position := position'; pol_finished_d := finished_d';
           dispatcher := MOVE_POLYNOMAL;
           coeffcnt := coeffcnt s;
           read_commit := read_commit s;
           read_en := true;
           dispatcherror := dispatcherror s;
           start := start s;
           ticklimit := ticklimit s;
           coeff := coeff s |}
      else if coeffcnt s <? Z.of_nat ncoeff then
        {| parser := parser'; polynomal := polynomal';
           position := position'; pol_finished_d := finished_d';
           dispatcher := MOVE_POLYNOMAL;
           coeffcnt := Signal.trunc coeffcnt_width (coeffcnt s + 1);
           read_commit := read_commit s;
           read_en := false;
           dispatcherror := dispatcherror s;
           start := start s;
           ticklimit := ticklimit s;
           coeff :=
             <[Z.to_nat (coeffcnt s) := Signal.wrap 64 (read_data i)]>
               (coeff s) |}
      else
        {| parser := parser'; polynomal := polynomal';
           position := position'; pol_finished_d := finished_d';
           dispatcher := WAIT_INSTRUCTION;
           coeffcnt := coeffcnt s;
           read_commit := true;
           read_en := false;
           dispatcherror := dispatcherror s;
           start := true;
           ticklimit := ticklimit s;
           coeff := coeff s |}
  | ERROR =>
      {| parser := parser'; polynomal := polynomal';
         position := position'; pol_finished_d := finished_d';
         dispatcher := ERROR;
         coeffcnt := coeffcnt s;
         read_commit := read_commit s;
         read_en := read_en s;
         dispatcherror := dispatcherror s;
         start := start s;
         ticklimit := ticklimit s;
         coeff := coeff s |}
  end.

Definition run (ins : list inputs) (s : t) : t :=
  foldl (fun s i => tick i s) s ins.

Definition reachable (s : t) : Prop := exists ins, s = run ins reset.

(** What holds of the strobes the dispatcher drives, state by state:
    [read_commit] and [start] are low everywhere but in
    WAIT_INSTRUCTION, which is entered with both high and lowers them. *)
Definition quiet (s : t) : Prop :=
  match dispatcher s with
  | WAIT_INSTRUCTION => True
  | PARSEHEAD =>
      read_commit s = false /\ start s = false /\ read_en s = true
  | ERROR =>
      read_commit s = false /\ start s = false /\ read_en s = true
      /\ dispatcherror s = true
  | RESET | MOVE_POLYNOMAL => read_commit s = false /\ start s = false
  end.

(** The FIFO moves its read pointer at an edge where its read
    enable is high and it is not empty. *)
Definition queue_read (i : inputs) (s : t) : bool :=
  read_en s && negb (empty i).

(** Edges at which a header with the MOVE opcode is taken, and at
    which a coefficient word is stored into [polynomal.coeff]. *)
Definition header_edge (i : inputs) (s : t) : bool :=
  match dispatcher s with
  | PARSEHEAD => opcode i =? MOVE cfg
  | _ => false
  end.

Definition load_edge (s : t) : bool :=
  match dispatcher s with
  | MOVE_POLYNOMAL => read_en s && (coeffcnt s <? Z.of_nat ncoeff)
  | _ => false
  end.

(** Coefficient words stored since the last MOVE header, along a
    run that starts in [s] with [n] of them already stored. *)
Fixpoint loaded (ins : list inputs) (s : t) (n : Z) : Z :=
  match ins with
  | [] => n
  | i :: r =>
      loaded r (tick i s)
        (if header_edge i s then 0
         else if load_edge s then n + 1 else n)
  end.

(** The edges that read coefficient words off the queue: for each
    word one edge that raises the read enable and one that stores what
    the read port shows. *)
Definition word_edges (pairs : list (inputs * inputs)) : list inputs :=
  flat_map (fun p => [fst p; snd p]) pairs.

Definition stored (pairs : list (inputs * inputs)) : list Z :=
  map (fun p => Signal.wrap 64 (read_data (snd p))) pairs.

(** An edge at which no START command is taken. *)
Definition no_start (i : inputs) : Prop :=
  command_ready i = false \/ command i <> COMMANDS.START.

(** The design as it is while nothing has been dispatched. *)
Definition idle (s : t) : Prop :=
  SPIParser.execute (parser s) = false
  /\ (dispatcher s = RESET \/ dispatcher s = WAIT_INSTRUCTION)
  /\ read_en s = false
  /\ start s = false
  /\ read_commit s = false
  /\ dispatcherror s = false
  /\ Polynomal.polynomen (polynomal s) <> Polynomal.RUNNING
  /\ Polynomal.busy (polynomal s) = false
  /\ Polynomal.finished (polynomal s) = false
  /\ position s = replicate (motors cfg) 0.

End WithConfig.
End Dispatcher.

(** ** A test bench

    A three-axis machine with eight-byte words, and the stimuli of the
    concrete runs used below. *)
Module Bench.

Definition cfg : Config := {|
  WORD_BYTES := 8;
  MEMWIDTH := 64;
  BIT_SHIFT := 40;
  MOVE_TICKS := 10000;
  MOVE := 1;
  motors := 3;
  bytesinmove := 80;
  divider := 50
|}.

(** Stimuli of the integrator: a move of [ticklimit] ticks whose first
    axis has coefficients [(a, b, c)], the other axes standing still. *)
Definition move (go : bool) (a b c limit : Z) : Polynomal.inputs := {|
  Polynomal.coeff := [a; b; c; 0; 0; 0; 0; 0; 0];
  Polynomal.start := go;
  Polynomal.ticklimit := limit
|}.

(** The integrator out of reset and started on a move. *)
Definition started (a b c limit : Z) : Polynomal.t :=
  Polynomal.tick cfg (move true a b c limit)
    (Polynomal.tick cfg (move false 0 0 0 0) (Polynomal.reset cfg)).

(** The edges of a whole move of [limit] ticks, and one more. *)
Definition edges (limit : nat) : nat := (limit * 50 + 1)%nat.

(** Two moves in a row: the first with a quadratic term only, the
    second linear. *)
Definition first_done : Polynomal.t :=
  Polynomal.run cfg (edges 4) (move false 0 (2 ^ 39) 0 4)
    (started 0 (2 ^ 39) 0 4).

Definition second_started : Polynomal.t :=
  Polynomal.tick cfg (move true (2 ^ 41) 0 0 4) first_done.

Definition second_done : Polynomal.t :=
  Polynomal.run cfg (edges 4) (move false (2 ^ 41) 0 0 4) second_started.

(** A slow linear move, after its fourth and its fifth real-time tick. *)
Definition slow : Polynomal.inputs := move false (2 ^ 38) 0 0 8.

Definition after_four : Polynomal.t :=
  Polynomal.run cfg (4 * 50) slow (started (2 ^ 38) 0 0 8).

Definition after_five : Polynomal.t := Polynomal.run cfg 50 slow after_four.

(** Stimuli of the parser. *)
Definition quiet_bus (space pins : Z) : SPIParser.inputs := {|
  SPIParser.command_ready := false;
  SPIParser.command := COMMANDS.EMPTY;
  SPIParser.word_complete := false;
  SPIParser.word_received := 0;
  SPIParser.space_available := space;
  SPIParser.position := [10; 20; 30];
  SPIParser.pinstate := pins;
  SPIParser.dispatcherror := false
|}.

Definition send (c : COMMANDS.t) (space pins : Z) : SPIParser.inputs := {|
  SPIParser.command_ready := true;
  SPIParser.command := c;
  SPIParser.word_complete := false;
  SPIParser.word_received := 0;
  SPIParser.space_available := space;
  SPIParser.position := [10; 20; 30];
  SPIParser.pinstate := pins;
  SPIParser.dispatcherror := false
|}.

Definition payload (w space : Z) : SPIParser.inputs := {|
  SPIParser.command_ready := false;
  SPIParser.command := COMMANDS.EMPTY;
  SPIParser.word_complete := true;
  SPIParser.word_received := w;
  SPIParser.space_available := space;
  SPIParser.position := [10; 20; 30];
  SPIParser.pinstate := 0;
  SPIParser.dispatcherror := false
|}.

(** The parser out of reset, waiting for a command. *)
Definition waiting : SPIParser.t :=
  SPIParser.tick cfg (quiet_bus 100 0) SPIParser.reset.

(** One payload word of an instruction written, nine to go. *)
Definition one_word : list SPIParser.inputs :=
  [send COMMANDS.WRITE 100 0; payload 7 100; quiet_bus 99 0].

(** Five POSITION commands in a row. *)
Definition five_queries : list SPIParser.inputs :=
  replicate 5 (send COMMANDS.POSITION 100 0).

(** The parser executing, its PARSING bit set. *)
Definition executing : SPIParser.t :=
  SPIParser.run cfg [send COMMANDS.START 100 0; quiet_bus 100 0] waiting.

(** Stimuli of the whole design. *)
Definition bus (ready : bool) (c : COMMANDS.t) (data : Z) (no_data : bool)
  : Dispatcher.inputs := {|
  Dispatcher.command_ready := ready;
  Dispatcher.command := c;
  Dispatcher.word_complete := false;
  Dispatcher.word_received := 0;
  Dispatcher.read_data := data;
  Dispatcher.empty := no_data;
  Dispatcher.space_available := 100;
  Dispatcher.limit := [false; false; false]
|}.

(** The FIFO shows a committed word [data] at its read port. *)
Definition queued (data : Z) : Dispatcher.inputs :=
  bus false COMMANDS.EMPTY data false.

(** Reset, START, and a queue whose first word has opcode 0. *)
Definition to_parsehead : list Dispatcher.inputs :=
  [bus false COMMANDS.EMPTY 0 true; bus true COMMANDS.START 0 true; queued 0].

(** Reset, START, and a whole MOVE instruction read from the queue: the
    header (MOVE, 4 ticks) and nine coefficient words, each taking an
    edge to raise the read enable and an edge to store. *)
Definition whole_move : list Dispatcher.inputs :=
  [bus false COMMANDS.EMPTY 0 true; bus true COMMANDS.START 0 true;
   queued 1025; queued 1025]
  ++ replicate 19 (queued 5).

(** The stimuli that take the integrator from reset through the first
    of the two moves. *)
Definition first_move_edges : list Polynomal.inputs :=
  [move false 0 0 0 0; move true 0 (2 ^ 39) 0 4]
  ++ replicate (edges 4) (move false 0 (2 ^ 39) 0 4).

(** The stimuli of the slow move up to its fifth real-time tick. *)
Definition slow_edges : list Polynomal.inputs :=
  [move false 0 0 0 0; move true (2 ^ 38) 0 0 8] ++ replicate 250 slow.

(** Coefficients and accumulators of the three axes that agree on the
    second axis only. *)
Definition some_coeff : list Z := [1; 2; 3; 40; 50; 60; 7; 8; 9].
Definition other_coeff : list Z := [0; 0; 0; 40; 50; 60; -7; -8; -9].
Definition some_cntrs : list Z := [11; 12; 13; 14; 15; 16; 17; 18; 19].
Definition other_cntrs : list Z := [0; 0; 0; 14; 15; 16; 0; 0; 0].

(** Three POSITION commands in a row. *)
Definition three_queries : list SPIParser.inputs :=
  replicate 3 (send COMMANDS.POSITION 100 0).

(** The design with the header of a MOVE of 4 ticks taken. *)
Definition header_edges : list Dispatcher.inputs :=
  [bus false COMMANDS.EMPTY 0 true; bus true COMMANDS.START 0 true;
   queued 1025; queued 1025].

Definition header_taken : Dispatcher.t :=
  Dispatcher.run cfg header_edges (Dispatcher.reset cfg).

(** The coefficient words of a linear move of the first axis, one step
    a tick, as the queue presents them. *)
Definition linear_words : list (Dispatcher.inputs * Dispatcher.inputs) :=
  map (fun w => (queued 0, queued w)) [2 ^ 41; 0; 0; 0; 0; 0; 0; 0; 0].

(** The design with that move loaded and [start] raised. *)
Definition move_loaded : Dispatcher.t :=
  Dispatcher.tick cfg (queued 0)
    (Dispatcher.tick cfg (queued 0)
       (Dispatcher.run cfg (Dispatcher.word_edges linear_words) header_taken)).

(** The edges of the move, with more instructions waiting in the queue. *)
Definition move_edges : list Dispatcher.inputs := replicate 200 (queued 1025).

(** The design at the edge at which the integrator shows [finished]. *)
Definition move_finishing : list Dispatcher.inputs :=
  header_edges ++ Dispatcher.word_edges linear_words
  ++ [queued 0; queued 0; bus false COMMANDS.EMPTY 0 true]
  ++ move_edges ++ [queued 1025].

(** A queue full of instructions and no START. *)
Definition not_started : list Dispatcher.inputs := replicate 5 (queued 1025).

End Bench.

(** * Properties *)

(** ** Facts about signal values *)
Section SignalFacts.
Import Signal.

Lemma wrap_congr (w a b : Z) :
  a mod 2 ^ w = b mod 2 ^ w -> wrap w a = wrap w b.
Proof.
  intros H. unfold wrap. f_equal.
  rewrite <- (Zplus_mod_idemp_l a), H, Zplus_mod_idemp_l. reflexivity.
Qed.

Lemma wrap_mod (w x : Z) : 0 <= w -> wrap w x mod 2 ^ w = x mod 2 ^ w.
Proof.
  intros Hw. unfold wrap.
  rewrite Zminus_mod_idemp_l. f_equal. lia.
Qed.

Lemma wrap_add_l (w x y : Z) :
  0 <= w -> wrap w (wrap w x + y) = wrap w (x + y).
Proof.
  intros Hw. apply wrap_congr.
  rewrite <- Zplus_mod_idemp_l, wrap_mod, Zplus_mod_idemp_l by assumption.
  reflexivity.
Qed.

Lemma wrap_small (w x : Z) :
  1 <= w -> - 2 ^ (w - 1) <= x < 2 ^ (w - 1) -> wrap w x = x.
Proof.
  intros Hw Hx. unfold wrap.
  replace (2 ^ w) with (2 * 2 ^ (w - 1)).
  - rewrite Z.mod_small; lia.
  - rewrite <- Z.pow_succ_r by lia. f_equal. lia.
Qed.

Lemma trunc_small (w x : Z) : 0 <= x < 2 ^ w -> trunc w x = x.
Proof. intros H. unfold trunc. apply Z.mod_small. assumption. Qed.

Lemma bit_length_nonneg (x : Z) : 0 <= bit_length x.
Proof.
  unfold bit_length. destruct (x =? 0); [lia|].
  pose proof (Z.log2_nonneg (Z.abs x)). lia.
Qed.

Lemma bit_length_bound (x : Z) : 0 <= x -> x < 2 ^ bit_length x.
Proof.
  intros Hx. unfold bit_length. destruct (Z.eqb_spec x 0) as [->|Hne].
  - reflexivity.
  - rewrite Z.abs_eq by assumption.
    replace (Z.log2 x + 1) with (Z.succ (Z.log2 x)) by lia.
    apply Z.log2_spec. lia.
Qed.

(** A [Signal(range(n))] holds every value below [n]. *)
Lemma range_width_bound (n : Z) : 0 < n -> n - 1 < 2 ^ range_width n.
Proof.
  intros Hn. unfold range_width.
  destruct (Z.leb_spec n 0); [lia|].
  pose proof (bit_length_bound (n - 1) ltac:(lia)) as Hb.
  pose proof (bit_length_nonneg (n - 1)) as Hnn.
  eapply Z.lt_le_trans; [exact Hb|].
  apply Z.pow_le_mono_r; lia.
Qed.

Lemma testbit_from_bits (l : list bool) (k : nat) :
  Z.testbit (from_bits l) (Z.of_nat k) = getb l k.
Proof.
  revert k. induction l as [|b r IH]; intros k.
  - simpl. rewrite Z.testbit_0_l. destruct k; reflexivity.
  - change (from_bits (b :: r)) with (Z.b2z b + 2 * from_bits r).
    destruct k as [|k].
    + rewrite Z.add_comm. simpl Z.of_nat. rewrite Z.testbit_0_r.
      reflexivity.
    + rewrite Nat2Z.inj_succ, Z.add_comm, Z.testbit_succ_r, IH.
      * reflexivity.
      * lia.
Qed.

Lemma from_bits_nonneg (l : list bool) : 0 <= from_bits l.
Proof.
  induction l as [|b r IH]; simpl; [lia|].
  change (0 <= Z.b2z b + 2 * from_bits r). destruct b; simpl Z.b2z; lia.
Qed.

Lemma from_bits_bound (l : list bool) :
  from_bits l < 2 ^ Z.of_nat (length l).
Proof.
  induction l as [|b r IH].
  - simpl. lia.
  - change (from_bits (b :: r)) with (Z.b2z b + 2 * from_bits r).
    change (length (b :: r)) with (S (length r)).
    rewrite Nat2Z.inj_succ, Z.pow_succ_r by lia.
    destruct b; simpl Z.b2z; lia.
Qed.

Lemma testbit_assign_bit_eq (x i : Z) (b : bool) :
  0 <= i -> Z.testbit (assign_bit x i b) i = b.
Proof.
  intros Hi. unfold assign_bit. destruct b.
  - apply Z.setbit_eq. assumption.
  - apply Z.clearbit_eq.
Qed.

Lemma testbit_assign_bit_neq (x i j : Z) (b : bool) :
  0 <= i -> i <> j -> Z.testbit (assign_bit x i b) j = Z.testbit x j.
Proof.
  intros Hi Hne. unfold assign_bit. destruct b.
  - apply Z.setbit_neq; assumption.
  - apply Z.clearbit_neq. assumption.
Qed.

End SignalFacts.

(** ** The integrator *)
Section PolynomalFacts.
Import Signal Polynomal.
Context (cfg : Config).

Lemma cntrs_width_pos : 1 <= cntrs_width cfg.
Proof.
  unfold cntrs_width, max_bits.
  pose proof (bit_length_nonneg (Z.shiftl (max_steps cfg) (BIT_SHIFT cfg))).
  lia.
Qed.

Lemma length_advance_motor (c k acc : list Z) (motor : nat) :
  length (advance_motor cfg c k acc motor) = length acc.
Proof. unfold advance_motor. rewrite !length_insert. reflexivity. Qed.

Lemma advance_motor_same (c k acc : list Z) (motor j : nat) :
  (j < 3)%nat -> (motor * order + 2 < length acc)%nat ->
  advance_motor cfg c k acc motor !! (motor * order + j)%nat
  = Some (advanced cfg c k motor j).
Proof.
  intros Hj Hlen. unfold advance_motor, advanced.
  destruct j as [|[|[|j]]]; try lia.
  - rewrite Nat.add_0_r.
    rewrite list_lookup_insert_eq by (rewrite !length_insert; lia).
    reflexivity.
  - rewrite list_lookup_insert_ne by lia.
    rewrite list_lookup_insert_eq by (rewrite !length_insert; lia).
    reflexivity.
  - rewrite !list_lookup_insert_ne by lia.
    rewrite list_lookup_insert_eq by lia.
    reflexivity.
Qed.

Lemma advance_motor_other (c k acc : list Z) (motor m j : nat) :
  (j < 3)%nat -> m <> motor ->
  advance_motor cfg c k acc m !! (motor * order + j)%nat
  = acc !! (motor * order + j)%nat.
Proof.
  intros Hj Hne. unfold advance_motor, order.
  rewrite !list_lookup_insert_ne by lia. reflexivity.
Qed.

(** A value a tick has written stays through the other motors'
    assignments. *)
Lemma advance_fold_keeps (c k : list Z) (motor j : nat) (l : list nat) :
  (j < 3)%nat ->
  forall acc,
    (motor * order + 2 < length acc)%nat ->
    acc !! (motor * order + j)%nat = Some (advanced cfg c k motor j) ->
    foldl (advance_motor cfg c k) acc l !! (motor * order + j)%nat
    = Some (advanced cfg c k motor j).
Proof.
  intros Hj. induction l as [|m l IH]; intros acc Hlen Hacc.
  - exact Hacc.
  - simpl. apply IH.
    + rewrite length_advance_motor. exact Hlen.
    + destruct (Nat.eq_dec m motor) as [->|Hne].
      * apply advance_motor_same; assumption.
      * rewrite advance_motor_other by assumption. exact Hacc.
Qed.

Lemma advance_fold_lookup (c k : list Z) (motor j : nat) (l : list nat) :
  (j < 3)%nat -> In motor l ->
  forall acc,
    (motor * order + 2 < length acc)%nat ->
    foldl (advance_motor cfg c k) acc l !! (motor * order + j)%nat
    = Some (advanced cfg c k motor j).
Proof.
  intros Hj. induction l as [|m l IH]; intros Hin acc Hlen.
  - destruct Hin.
  - simpl. destruct (Nat.eq_dec m motor) as [->|Hne].
    + apply advance_fold_keeps.
      * assumption.
      * rewrite length_advance_motor. exact Hlen.
      * apply advance_motor_same; assumption.
    + apply IH.
      * destruct Hin as [Heq|Hin]; [congruence|exact Hin].
      * rewrite length_advance_motor. exact Hlen.
Qed.

(** What a real-time tick leaves in the three accumulators of an axis. *)
Lemma get_advance (c k : list Z) (motor j : nat) :
  (j < 3)%nat -> (motor < motors cfg)%nat ->
  length k = (order * motors cfg)%nat ->
  get (advance cfg c k) (motor * order + j) = advanced cfg c k motor j.
Proof.
  intros Hj Hm Hlen. unfold get, advance.
  rewrite advance_fold_lookup.
  - reflexivity.
  - assumption.
  - unfold axes. apply in_seq. lia.
  - unfold order in *. lia.
Qed.

Lemma length_advance (c k : list Z) :
  length (advance cfg c k) = length k.
Proof.
  unfold advance. generalize (axes cfg). intros l.
  generalize k at 2 3. induction l as [|m l IH]; intros acc.
  - reflexivity.
  - simpl. rewrite IH. apply length_advance_motor.
Qed.

Lemma run_add (n m : nat) (i : inputs) (s : t) :
  run cfg (n + m) i s = run cfg m i (run cfg n i s).
Proof.
  revert s. induction n as [|n IH]; intros s.
  - reflexivity.
  - simpl. apply IH.
Qed.

End PolynomalFacts.

(** ** A move, from its first real-time tick to [finished] *)
Section PolynomalMove.
Import Signal Polynomal.
Context (cfg : Config) (i : inputs).
Hypothesis divider_pos : 1 <= divider cfg.
Hypothesis ticklimit_fits : 0 <= ticklimit i < 2 ^ ticks_width cfg.

(** Clock edges between two real-time ticks leave the accumulators
    alone and count [cntr] up to [divider - 1]. *)
Lemma waiting_edges (d : nat) (s : t) :
  polynomen s = RUNNING -> ticks s < ticklimit i ->
  0 <= cntr s -> cntr s + Z.of_nat d = divider cfg - 1 ->
  polynomen (run cfg d i s) = RUNNING
  /\ ticks (run cfg d i s) = ticks s
  /\ cntr (run cfg d i s) = divider cfg - 1
  /\ cntrs (run cfg d i s) = cntrs s
  /\ busy (run cfg d i s) = busy s.
Proof.
  revert s. induction d as [|d IH]; intros s Hfsm Hticks Hc Hd.
  - simpl. repeat split; try reflexivity; try assumption. lia.
  - assert (Hstep : tick cfg i s
                    = {| polynomen := RUNNING;
                         cntr := cntr s + 1;
                         ticks := ticks s;
                         cntrs := cntrs s;
                         counter_d := next_counter_d cfg s;
                         dir := next_dir cfg s;
                         busy := busy s;
                         finished := finished s |}).
    { unfold tick. rewrite Hfsm.
      replace (ticks s <? ticklimit i) with true
        by (symmetry; apply Z.ltb_lt; assumption).
      replace (divider cfg - 1 <=? cntr s) with false
        by (symmetry; apply Z.leb_gt; lia).
      simpl. rewrite trunc_small; [reflexivity|].
      pose proof (range_width_bound (divider cfg) ltac:(lia)).
      unfold cntr_width. lia. }
    simpl run. rewrite Hstep.
    match goal with |- context [run cfg d i ?s1] =>
      destruct (IH s1) as (H1 & H2 & H3 & H4 & H5);
        [reflexivity | exact Hticks | simpl; lia | simpl; lia |]
    end.
    rewrite H1, H2, H3, H4, H5. repeat split; reflexivity.
Qed.

(** The edge of a real-time tick. *)
Lemma real_time_tick (s : t) :
  polynomen s = RUNNING -> 0 <= ticks s < ticklimit i ->
  divider cfg - 1 <= cntr s ->
  tick cfg i s
  = {| polynomen := RUNNING;
       cntr := 0;
       ticks := ticks s + 1;
       cntrs := advance cfg (coeff i) (cntrs s);
       counter_d := next_counter_d cfg s;
       dir := next_dir cfg s;
       busy := busy s;
       finished := finished s |}.
Proof.
  intros Hfsm Hticks Hc. unfold tick. rewrite Hfsm.
  replace (ticks s <? ticklimit i) with true
    by (symmetry; apply Z.ltb_lt; lia).
  replace (divider cfg - 1 <=? cntr s) with true
    by (symmetry; apply Z.leb_le; assumption).
  simpl. rewrite trunc_small by lia. reflexivity.
Qed.

(** The edge after the last real-time tick. *)
Lemma finishing_edge (s : t) :
  polynomen s = RUNNING -> ticks s = ticklimit i ->
  tick cfg i s
  = {| polynomen := WAIT_START;
       cntr := cntr s;
       ticks := 0;
       cntrs := cntrs s;
       counter_d := next_counter_d cfg s;
       dir := next_dir cfg s;
       busy := false;
       finished := true |}.
Proof.
  intros Hfsm Hticks. unfold tick. rewrite Hfsm.
  replace (ticks s <? ticklimit i) with false
    by (symmetry; apply Z.ltb_ge; lia).
  reflexivity.
Qed.

(** One period of the divided clock: [divider] edges, the last of
    which is the real-time tick. *)
Lemma period (s : t) :
  polynomen s = RUNNING -> 0 <= ticks s < ticklimit i -> cntr s = 0 ->
  let s' := run cfg (Z.to_nat (divider cfg)) i s in
  polynomen s' = RUNNING
  /\ ticks s' = ticks s + 1
  /\ cntr s' = 0
  /\ cntrs s' = advance cfg (coeff i) (cntrs s)
  /\ busy s' = busy s.
Proof.
  intros Hfsm Hticks Hc.
  replace (Z.to_nat (divider cfg))
    with (Z.to_nat (divider cfg - 1) + 1)%nat by lia.
  rewrite run_add.
  destruct (waiting_edges (Z.to_nat (divider cfg - 1)) s)
    as (H1 & H2 & H3 & H4 & H5); try assumption; try lia.
  simpl. rewrite real_time_tick by (try assumption; lia).
  simpl. rewrite H2, H4, H5. repeat split; reflexivity.
Qed.

End PolynomalMove.

Section CompletedMove.
Import Signal Polynomal.
Context (cfg : Config) (i : inputs) (motor : nat).
Hypothesis divider_pos : 1 <= divider cfg.
Hypothesis ticklimit_fits : 0 <= ticklimit i < 2 ^ ticks_width cfg.
Hypothesis motor_lt : (motor < motors cfg)%nat.

Let a := get (coeff i) (motor * order).
Let b := get (coeff i) (motor * order + 1).
Let c := get (coeff i) (motor * order + 2).
Let W := cntrs_width cfg.

Lemma wrap_add_r (w x y : Z) :
  0 <= w -> wrap w (x + wrap w y) = wrap w (x + y).
Proof.
  intros Hw. rewrite Z.add_comm, wrap_add_l by assumption.
  f_equal. lia.
Qed.

(** After [n] real-time ticks from zeroed accumulators the three
    accumulators of the axis hold the polynomial and its two forward
    differences, modulo the accumulator width. *)
Lemma after_real_ticks (n : nat) (s : t) :
  polynomen s = RUNNING -> ticks s = 0 -> cntr s = 0 ->
  length (cntrs s) = (order * motors cfg)%nat ->
  get (cntrs s) (motor * order) = 0 ->
  get (cntrs s) (motor * order + 1) = 0 ->
  get (cntrs s) (motor * order + 2) = 0 ->
  Z.of_nat n <= ticklimit i ->
  let s' := run cfg (n * Z.to_nat (divider cfg)) i s in
  polynomen s' = RUNNING
  /\ ticks s' = Z.of_nat n
  /\ cntr s' = 0
  /\ length (cntrs s') = (order * motors cfg)%nat
  /\ busy s' = busy s
  /\ get (cntrs s') (motor * order) = wrap W (polynomial a b c (Z.of_nat n))
  /\ get (cntrs s') (motor * order + 1)
     = wrap W (3 * c * Z.of_nat n * (Z.of_nat n - 1) + 2 * b * Z.of_nat n)
  /\ get (cntrs s') (motor * order + 2) = wrap W (6 * c * Z.of_nat n).
Proof.
  intros Hfsm Hticks Hcntr Hlen H0 H1 H2.
  assert (HW : 1 <= W) by apply cntrs_width_pos.
  assert (Hz : wrap W 0 = 0).
  { apply wrap_small; [exact HW|].
    assert (0 < 2 ^ (W - 1)) by (apply Z.pow_pos_nonneg; lia). lia. }
  induction n as [|n IH]; intros Hn.
  - simpl. unfold polynomial.
    repeat split; try assumption; try reflexivity.
    + rewrite H0. symmetry. rewrite <- Hz at 1. f_equal. simpl. ring.
    + rewrite H1. symmetry. rewrite <- Hz at 1. f_equal. simpl. ring.
    + rewrite H2. symmetry. rewrite <- Hz at 1. f_equal. simpl. ring.
  - destruct IH as (I1 & I2 & I3 & I4 & I5 & I6 & I7 & I8); [lia|].
    replace (S n * Z.to_nat (divider cfg))%nat
      with (n * Z.to_nat (divider cfg) + Z.to_nat (divider cfg))%nat by lia.
    rewrite run_add.
    set (sn := run cfg (n * Z.to_nat (divider cfg)) i s) in *.
    destruct (period cfg i divider_pos ticklimit_fits sn)
      as (P1 & P2 & P3 & P4 & P5); try assumption; [lia|].
    cbv zeta. rewrite P1, P2, P3, P4, P5.
    rewrite length_advance.
    replace (motor * order)%nat with (motor * order + 0)%nat at 1 by lia.
    rewrite !get_advance by (try assumption; lia).
    unfold advanced, op1, op2, op3. fold a b c W.
    rewrite I6, I7, I8. rewrite Nat2Z.inj_succ.
    repeat split; try assumption; try lia.
    + set (p1 := polynomial a b c (Z.of_nat n)).
      set (p2 := 3 * c * Z.of_nat n * (Z.of_nat n - 1) + 2 * b * Z.of_nat n).
      set (p3 := 6 * c * Z.of_nat n).
      rewrite wrap_add_r by lia.
      replace (c + b + a + wrap W p3 + wrap W p2 + p1)
        with (c + b + a + wrap W p3 + p1 + wrap W p2) by ring.
      rewrite wrap_add_r by lia.
      replace (c + b + a + wrap W p3 + p1 + p2)
        with (c + b + a + p1 + p2 + wrap W p3) by ring.
      rewrite wrap_add_r by lia.
      f_equal. subst p1 p2 p3. unfold polynomial. ring.
    + set (p2 := 3 * c * Z.of_nat n * (Z.of_nat n - 1) + 2 * b * Z.of_nat n).
      set (p3 := 6 * c * Z.of_nat n).
      rewrite wrap_add_r by lia.
      replace (wrap W p3 + 2 * b + p2) with (2 * b + p2 + wrap W p3) by ring.
      rewrite wrap_add_r by lia.
      f_equal. subst p2 p3. ring.
    + rewrite wrap_add_r by lia. f_equal. ring.
Qed.

End CompletedMove.

Section TotalSteps.
Import Signal Polynomal.
Context (cfg : Config).
Hypothesis bit_shift_nonneg : 0 <= BIT_SHIFT cfg.
Hypothesis move_ticks_nonneg : 0 <= MOVE_TICKS cfg.

Lemma max_steps_nonneg : 0 <= max_steps cfg.
Proof. unfold max_steps. apply Z.div_pos; lia. Qed.

(** The accumulator is [BIT_SHIFT] bits wider than [totalsteps]. *)
Lemma max_bits_le :
  max_bits cfg <= bit_length (max_steps cfg) + BIT_SHIFT cfg + 1.
Proof.
  pose proof max_steps_nonneg as Hm.
  unfold max_bits, bit_length.
  destruct (Z.eqb_spec (max_steps cfg) 0) as [H0|Hne].
  - rewrite H0, Z.shiftl_0_l. simpl. lia.
  - assert (Hpos : 0 < max_steps cfg) by lia.
    assert (Hs : 0 < Z.shiftl (max_steps cfg) (BIT_SHIFT cfg)).
    { rewrite Z.shiftl_mul_pow2 by assumption.
      apply Z.mul_pos_pos; [assumption|]. apply Z.pow_pos_nonneg; lia. }
    destruct (Z.eqb_spec (Z.shiftl (max_steps cfg) (BIT_SHIFT cfg)) 0);
      [lia|].
    rewrite !Z.abs_eq by lia.
    rewrite Z.log2_shiftl by assumption. lia.
Qed.

(** Shifting an accumulator that is within its width gives a value
    [totalsteps] holds without loss. *)
Lemma totalsteps_fits (x : Z) :
  - 2 ^ max_bits cfg <= x < 2 ^ max_bits cfg ->
  wrap (totalsteps_width cfg) (Z.shiftr x (BIT_SHIFT cfg + 1))
  = Z.shiftr x (BIT_SHIFT cfg + 1).
Proof.
  intros Hx. unfold totalsteps_width.
  pose proof (bit_length_nonneg (max_steps cfg)) as HL.
  set (L := bit_length (max_steps cfg)) in *.
  pose proof max_bits_le as Hle. fold L in Hle.
  assert (Hp : 2 ^ max_bits cfg <= 2 ^ (BIT_SHIFT cfg + 1) * 2 ^ L).
  { rewrite <- Z.pow_add_r by lia. apply Z.pow_le_mono_r; lia. }
  assert (Hb : 0 < 2 ^ (BIT_SHIFT cfg + 1)) by (apply Z.pow_pos_nonneg; lia).
  apply wrap_small; [lia|].
  replace (L + 1 - 1) with L by lia.
  rewrite Z.shiftr_div_pow2 by lia. split.
  - apply Z.div_le_lower_bound; [exact Hb|]. lia.
  - apply Z.div_lt_upper_bound; [exact Hb|]. lia.
Qed.

Lemma lookup_map_seq {A : Type} (f : nat -> A) (n k start : nat) :
  (k < n)%nat -> map f (seq start n) !! k = Some (f (start + k)%nat).
Proof.
  revert k start. induction n as [|n IH]; intros k start Hk; [lia|].
  destruct k as [|k].
  - simpl. rewrite Nat.add_0_r. reflexivity.
  - simpl. rewrite IH by lia. f_equal. f_equal. lia.
Qed.

Lemma get_totalsteps (s : t) (motor : nat) :
  (motor < motors cfg)%nat ->
  get (totalsteps cfg s) motor
  = wrap (totalsteps_width cfg)
      (Z.shiftr (get (cntrs s) (motor * order)) (BIT_SHIFT cfg + 1)).
Proof.
  intros Hm. unfold get at 1, totalsteps, axes.
  rewrite lookup_map_seq by assumption. reflexivity.
Qed.

End TotalSteps.

(** C1. A move that runs from zeroed accumulators to completion: after the
    [T] real-time ticks of a move with tick limit [T] and coefficients
    [(a, b, c)] for an axis, and the edge that raises [finished], the
    position accumulator of the axis is [a*T + b*T^2 + c*T^3] whenever
    that value is within the accumulator's signed width, and
    [totalsteps] is that value shifted right by [BIT_SHIFT + 1]. *)
Theorem C1_completed_move_polynomial
  (cfg : Config) (i : Polynomal.inputs) (motor : nat) (s : Polynomal.t) :
  let T := Polynomal.ticklimit i in
  let a := Signal.get (Polynomal.coeff i) (motor * Polynomal.order) in
  let b := Signal.get (Polynomal.coeff i) (motor * Polynomal.order + 1) in
  let c := Signal.get (Polynomal.coeff i) (motor * Polynomal.order + 2) in
  let p := Polynomal.polynomial a b c T in
  1 <= divider cfg -> 0 <= BIT_SHIFT cfg -> 0 <= MOVE_TICKS cfg ->
  0 <= T < 2 ^ Polynomal.ticks_width cfg ->
  (motor < motors cfg)%nat ->
  Polynomal.polynomen s = Polynomal.RUNNING ->
  Polynomal.ticks s = 0 -> Polynomal.cntr s = 0 ->
  length (Polynomal.cntrs s) = (Polynomal.order * motors cfg)%nat ->
  Signal.get (Polynomal.cntrs s) (motor * Polynomal.order) = 0 ->
  Signal.get (Polynomal.cntrs s) (motor * Polynomal.order + 1) = 0 ->
  Signal.get (Polynomal.cntrs s) (motor * Polynomal.order + 2) = 0 ->
  - 2 ^ Polynomal.max_bits cfg <= p < 2 ^ Polynomal.max_bits cfg ->
  let s' :=
    Polynomal.run cfg (Z.to_nat T * Z.to_nat (divider cfg) + 1) i s in
  Polynomal.polynomen s' = Polynomal.WAIT_START
  /\ Polynomal.finished s' = true
  /\ Polynomal.busy s' = false
  /\ Signal.get (Polynomal.cntrs s') (motor * Polynomal.order) = p
  /\ Signal.get (Polynomal.totalsteps cfg s') motor
     = Z.shiftr p (BIT_SHIFT cfg + 1).
Proof.
  intros T a b c p Hdiv Hbs Hmt HT Hmotor Hfsm Hticks Hcntr Hlen H0 H1 H2 Hp s'.
  destruct (after_real_ticks cfg i motor Hdiv HT Hmotor (Z.to_nat T) s)
    as (I1 & I2 & I3 & I4 & I5 & I6 & _); try assumption.
  { fold T. lia. }
  subst s'. rewrite run_add.
  set (sT := Polynomal.run cfg (Z.to_nat T * Z.to_nat (divider cfg)) i s) in *.
  simpl Polynomal.run.
  rewrite finishing_edge by (try assumption; fold T; lia).
  rewrite get_totalsteps by assumption. simpl.
  rewrite I6, Z2Nat.id by lia. fold a b c T p.
  assert (Hw : Signal.wrap (Polynomal.cntrs_width cfg) p = p).
  { apply wrap_small; [apply cntrs_width_pos|].
    unfold Polynomal.cntrs_width.
    replace (Polynomal.max_bits cfg + 1 - 1) with (Polynomal.max_bits cfg)
      by lia.
    exact Hp. }
  rewrite Hw. repeat split; try reflexivity.
  apply totalsteps_fits; assumption.
Qed.

(** ** The command processor *)
Section ParserFacts.
Import Signal SPIParser.
Context (cfg : Config).

Lemma state_tick (i : inputs) (s : t) :
  state (tick cfg i s) = next_state cfg i s.
Proof.
  unfold tick.
  destruct (parser s), (command_ready i), (command i), (word_complete i),
    (bytesinmove cfg <=? bytesreceived s); reflexivity.
Qed.

Lemma run_snoc (ins : list inputs) (i : inputs) (s : t) :
  run cfg (ins ++ [i]) s = tick cfg i (run cfg ins s).
Proof. unfold run. rewrite foldl_snoc. reflexivity. Qed.

Lemma trunc_nonneg (w x : Z) : 0 <= w -> 0 <= trunc w x.
Proof.
  intros Hw. unfold trunc. apply Z.mod_pos_bound.
  apply Z.pow_pos_nonneg; lia.
Qed.

Lemma range_width_nonneg (n : Z) : 0 <= range_width n.
Proof.
  unfold range_width. destruct (n <=? 0); [lia|].
  pose proof (bit_length_nonneg (n - 1)). lia.
Qed.

Lemma pulses_idle_reset : pulses_idle (reset).
Proof. unfold pulses_idle. simpl. repeat split; try congruence; lia. Qed.

Ltac idle_crush Hc He :=
  cbn [parser write_commit write_en bytesreceived]; repeat split; intros; try congruence; try lia;
  try (match goal with
       | H : write_commit _ = true |- _ => apply Hc in H; congruence
       end);
  try (match goal with
       | H : write_en _ = true |- _ => apply He in H; congruence
       end).

Lemma pulses_idle_tick (i : inputs) (s : t) :
  pulses_idle s -> pulses_idle (tick cfg i s).
Proof.
  intros (Hc & He & Hr & Hb). unfold pulses_idle, tick.
  pose proof (trunc_nonneg (bytesreceived_width cfg)
                (bytesreceived s + WORD_BYTES cfg)
                (range_width_nonneg _)) as Ht.
  destruct (parser s) eqn:Efsm.
  - idle_crush Hc He.
  - destruct (command_ready i); [destruct (command i)|]; idle_crush Hc He.
    all: match goal with
         | H : (if ?c then _ else _) = _ |- _ => destruct c; congruence
         end.
  - destruct (word_complete i); idle_crush Hc He.
  - destruct (bytesinmove cfg <=? bytesreceived s); idle_crush Hc He.
Qed.

Lemma reachable_pulses_idle (s : t) : reachable cfg s -> pulses_idle s.
Proof.
  intros [ins ->]. induction ins as [|i ins IH] using rev_ind.
  - apply pulses_idle_reset.
  - rewrite run_snoc. apply pulses_idle_tick. exact IH.
Qed.

Lemma accepted_nonneg (ins : list inputs) (s : t) : 0 <= accepted cfg ins s.
Proof.
  revert s. induction ins as [|i r IH]; intros s; simpl; [lia|].
  specialize (IH (tick cfg i s)).
  destruct (parser s); try lia. destruct (word_complete i); lia.
Qed.

(** While the counter stays below the instruction's byte count, no edge
    raises the commit strobe and the counter is the sum of the accepted
    words. *)
Lemma below_one_instruction (ins : list inputs) :
  0 <= WORD_BYTES cfg ->
  forall s,
    pulses_idle s ->
    bytesreceived s + accepted cfg ins s * WORD_BYTES cfg < bytesinmove cfg ->
    Forall (fun s' => write_commit s' = false) (trace cfg ins s)
    /\ bytesreceived (run cfg ins s)
       = bytesreceived s + accepted cfg ins s * WORD_BYTES cfg.
Proof.
  intros HW. induction ins as [|i r IH]; intros s Hinv Hlt.
  - simpl. split; [constructor|lia].
  - pose proof (pulses_idle_tick i s Hinv) as Hinv'.
    pose proof (accepted_nonneg r (tick cfg i s)) as Hacc.
    destruct Hinv as (Hc & He & Hr & Hb).
    simpl in Hlt. simpl trace. unfold run. simpl foldl. fold (run cfg r (tick cfg i s)).
    simpl accepted.
    assert (Hstep :
      write_commit (tick cfg i s) = false
      /\ bytesreceived (tick cfg i s)
         = bytesreceived s
           + match parser s with
             | WAIT_WORD => if word_complete i then 1 else 0
             | _ => 0
             end * WORD_BYTES cfg).
    { unfold tick. destruct (parser s) eqn:Efsm.
      - simpl. split; [|rewrite Hr by reflexivity; lia].
        destruct (write_commit s); [|reflexivity].
        specialize (Hc eq_refl). congruence.
      - destruct (command_ready i); [destruct (command i)|]; simpl;
          split; try reflexivity; lia.
      - destruct (word_complete i); simpl.
        + split.
          * destruct (write_commit s); [|reflexivity].
            specialize (Hc eq_refl). congruence.
          * rewrite trunc_small; [lia|].
            pose proof (range_width_bound (bytesinmove cfg + 1) ltac:(lia)).
            unfold bytesreceived_width. nia.
        + split; [|lia].
          destruct (write_commit s); [|reflexivity].
          specialize (Hc eq_refl). congruence.
      - replace (bytesinmove cfg <=? bytesreceived s) with false
          by (symmetry; apply Z.leb_gt; nia).
        simpl. split; [|lia].
        destruct (write_commit s); [|reflexivity].
        specialize (Hc eq_refl). congruence. }
    destruct Hstep as [Hwc Hbr].
    destruct (IH (tick cfg i s) Hinv') as [IH1 IH2].
    { rewrite Hbr. lia. }
    split.
    + constructor; assumption.
    + rewrite IH2, Hbr. lia.
Qed.

End ParserFacts.

(** C2. Payload words that keep the bytes-received counter below the
    byte count of one instruction raise no write commit, and the counter
    adds up the accepted words; the commit strobe is raised exactly by
    the WRITE state finding the counter at (or past) that byte count,
    the counter is then 0, and the strobe is low again one edge later. *)
Theorem C2_commit_only_on_full_instruction
  (cfg : Config) (s : SPIParser.t) (ins : list SPIParser.inputs)
  (i : SPIParser.inputs) :
  SPIParser.reachable cfg s ->
  0 <= WORD_BYTES cfg ->
  (SPIParser.bytesreceived s
   + SPIParser.accepted cfg ins s * WORD_BYTES cfg < bytesinmove cfg ->
   Forall (fun s' => SPIParser.write_commit s' = false)
          (SPIParser.trace cfg ins s)
   /\ SPIParser.bytesreceived (SPIParser.run cfg ins s)
      = SPIParser.bytesreceived s
        + SPIParser.accepted cfg ins s * WORD_BYTES cfg)
  /\ (SPIParser.write_commit (SPIParser.tick cfg i s) = true <->
      SPIParser.parser s = SPIParser.WRITE
      /\ bytesinmove cfg <= SPIParser.bytesreceived s)
  /\ (SPIParser.write_commit (SPIParser.tick cfg i s) = true ->
      SPIParser.bytesreceived (SPIParser.tick cfg i s) = 0
      /\ forall j,
          SPIParser.write_commit
            (SPIParser.tick cfg j (SPIParser.tick cfg i s)) = false).
Proof.
  intros Hreach HW.
  pose proof (reachable_pulses_idle cfg s Hreach) as Hinv.
  split; [|split].
  - intros Hlt. apply below_one_instruction; assumption.
  - destruct Hinv as (Hc & He & Hr & Hb).
    unfold SPIParser.tick. destruct (SPIParser.parser s) eqn:Efsm.
    + simpl. split; [intros H; apply Hc in H; congruence|].
      intros [H _]. congruence.
    + destruct (SPIParser.command_ready i);
        [destruct (SPIParser.command i)|]; simpl;
        (split; [congruence|intros [H _]; congruence]).
    + destruct (SPIParser.word_complete i); simpl;
        (split; [intros H; apply Hc in H; congruence
                |intros [H _]; congruence]).
    + destruct (Z.leb_spec (bytesinmove cfg) (SPIParser.bytesreceived s));
        simpl.
      * split; [intros _; split; [reflexivity|assumption]|reflexivity].
      * split; [intros H'; apply Hc in H'; congruence|intros [_ H']; lia].
  - intros Hcommit.
    assert (Hw : SPIParser.parser s = SPIParser.WRITE
                 /\ bytesinmove cfg <= SPIParser.bytesreceived s).
    { destruct Hinv as (Hc & He & Hr & Hb). revert Hcommit.
      unfold SPIParser.tick. destruct (SPIParser.parser s) eqn:Efsm.
      - simpl. intros H. apply Hc in H. congruence.
      - destruct (SPIParser.command_ready i);
          [destruct (SPIParser.command i)|]; simpl; congruence.
      - destruct (SPIParser.word_complete i); simpl;
          intros H; apply Hc in H; congruence.
      - destruct (Z.leb_spec (bytesinmove cfg) (SPIParser.bytesreceived s));
          simpl.
        + intros _. split; [reflexivity|assumption].
        + intros H'. apply Hc in H'. congruence. }
    destruct Hw as [Hfsm Hge].
    assert (Hs1 : SPIParser.parser (SPIParser.tick cfg i s)
                  = SPIParser.WAIT_COMMAND
                  /\ SPIParser.bytesreceived (SPIParser.tick cfg i s) = 0).
    { unfold SPIParser.tick. rewrite Hfsm.
      replace (bytesinmove cfg <=? SPIParser.bytesreceived s) with true
        by (symmetry; apply Z.leb_le; assumption).
      split; reflexivity. }
    destruct Hs1 as [Hfsm1 Hb1]. split; [exact Hb1|].
    intros j. unfold SPIParser.tick at 1. rewrite Hfsm1.
    destruct (SPIParser.command_ready j);
      [destruct (SPIParser.command j)|]; reflexivity.
Qed.

(** C4 as amended. After every edge the FULL bit of the status register
    says whether the FIFO's free space at that edge was below the word
    count of one instruction, whatever the bytes-received counter is. *)
Theorem C4_full_bit_is_space_test
  (cfg : Config) (i : SPIParser.inputs) (s : SPIParser.t) :
  Z.testbit (SPIParser.state (SPIParser.tick cfg i s)) STATE.FULL
  = (SPIParser.space_available i <? SPIParser.words_in_move cfg).
Proof.
  rewrite state_tick. unfold SPIParser.next_state.
  rewrite testbit_assign_bit_neq by (unfold STATE.DISPATCHERROR, STATE.FULL; lia).
  apply testbit_assign_bit_eq. unfold STATE.FULL. lia.
Qed.


(** C7 as amended. The reply word of a READ or WRITE command holds the
    status register bit-reversed in its bits 0 to 7 (bit 7 is PARSING,
    bit 6 FULL, bit 5 DISPATCHERROR), the pin state bit-reversed in its
    bits 8 to 15, and nothing above; a READ leaves the other registers
    of the parser as they are. *)
Theorem C7_reply_word_layout
  (cfg : Config) (s : SPIParser.t) (i : SPIParser.inputs) :
  2 <= WORD_BYTES cfg ->
  SPIParser.parser s = SPIParser.WAIT_COMMAND ->
  SPIParser.command_ready i = true ->
  SPIParser.command i = COMMANDS.READ
  \/ SPIParser.command i = COMMANDS.WRITE ->
  let s1 := SPIParser.tick cfg i s in
  let w := SPIParser.word_to_send s1 in
  (forall k : nat, (k < 8)%nat ->
     Z.testbit w (Z.of_nat k)
     = Z.testbit (SPIParser.state s) (Z.of_nat (7 - k)))
  /\ (forall k : nat, (k < 8)%nat ->
        Z.testbit w (Z.of_nat (8 + k))
        = Z.testbit (SPIParser.pinstate i) (Z.of_nat (7 - k)))
  /\ (forall k : nat, (16 <= k)%nat -> Z.testbit w (Z.of_nat k) = false)
  /\ (SPIParser.command i = COMMANDS.READ ->
      SPIParser.parser s1 = SPIParser.WAIT_COMMAND
      /\ SPIParser.execute s1 = SPIParser.execute s
      /\ SPIParser.bytesreceived s1 = SPIParser.bytesreceived s
      /\ SPIParser.mtrcntr s1 = SPIParser.mtrcntr s
      /\ SPIParser.write_en s1 = SPIParser.write_en s
      /\ SPIParser.write_data s1 = SPIParser.write_data s).
Proof.
  intros HW Hfsm Hready Hcmd s1 w.
  set (l := Signal.reversed 8 (SPIParser.state s)
            ++ Signal.reversed 8 (SPIParser.pinstate i)).
  assert (Hw : w = Signal.from_bits l).
  { subst w s1. unfold SPIParser.tick. rewrite Hfsm, Hready.
    assert (Hfit : Signal.trunc (SPIParser.word_size cfg)
                     (SPIParser.word i s) = Signal.from_bits l).
    { apply trunc_small. unfold SPIParser.word. fold l. split.
      - apply from_bits_nonneg.
      - eapply Z.lt_le_trans; [apply from_bits_bound|].
        change (Z.of_nat (length l)) with 16.
        apply Z.pow_le_mono_r; unfold SPIParser.word_size; lia. }
    destruct Hcmd as [-> | ->]; simpl; exact Hfit. }
  rewrite Hw. split; [|split; [|split]].
  - intros k Hk. rewrite testbit_from_bits.
    do 8 (destruct k as [|k]; [reflexivity|]). lia.
  - intros k Hk. rewrite testbit_from_bits.
    do 8 (destruct k as [|k]; [reflexivity|]). lia.
  - intros k Hk. rewrite testbit_from_bits. unfold Signal.getb.
    rewrite lookup_ge_None_2; [reflexivity|].
    change (length l) with 16%nat. lia.
  - intros Hread. subst s1. unfold SPIParser.tick.
    rewrite Hfsm, Hready, Hread. repeat split; reflexivity.
Qed.

(** ** The dispatcher *)
Section DispatcherFacts.
Import Signal Dispatcher.
Context (cfg : Config).

Lemma dispatcher_run_snoc (ins : list inputs) (i : inputs) (s : t) :
  run cfg (ins ++ [i]) s = tick cfg i (run cfg ins s).
Proof. unfold run. rewrite foldl_snoc. reflexivity. Qed.

Lemma dispatcher_run_cons (ins : list inputs) (i : inputs) (s : t) :
  run cfg (i :: ins) s = run cfg ins (tick cfg i s).
Proof. reflexivity. Qed.

Ltac fsm_cases s i :=
  unfold tick; cbv zeta;
  destruct (dispatcher s) eqn:?;
  [ | destruct (negb (empty i) && SPIParser.execute (parser s)
                && negb (Polynomal.busy (polynomal s)))
    | destruct (opcode i =? MOVE cfg) eqn:?
    | destruct (read_en s) eqn:?;
      [destruct (coeffcnt s <? Z.of_nat (ncoeff cfg)) eqn:?|]
    | ];
  cbn [dispatcher read_commit start read_en dispatcherror coeffcnt
       coeff ticklimit negb].

Lemma quiet_reset : quiet (reset cfg).
Proof. unfold quiet. simpl. split; reflexivity. Qed.

Lemma quiet_tick (i : inputs) (s : t) : quiet s -> quiet (tick cfg i s).
Proof.
  unfold quiet. fsm_cases s i; intuition.
Qed.

Lemma reachable_quiet (s : t) : reachable cfg s -> quiet s.
Proof.
  intros [ins ->]. induction ins as [|i ins IH] using rev_ind.
  - apply quiet_reset.
  - rewrite dispatcher_run_snoc. apply quiet_tick. exact IH.
Qed.

(** ERROR has no way out, and in it the dispatcher's registers hold. *)
Lemma error_holds (ins : list inputs) :
  forall s,
    dispatcher s = ERROR ->
    let s' := run cfg ins s in
    dispatcher s' = ERROR
    /\ dispatcherror s' = dispatcherror s
    /\ read_commit s' = read_commit s
    /\ start s' = start s
    /\ read_en s' = read_en s
    /\ coeff s' = coeff s
    /\ ticklimit s' = ticklimit s.
Proof.
  induction ins as [|i r IH]; intros s Herr.
  - simpl. repeat split; try reflexivity. exact Herr.
  - rewrite dispatcher_run_cons.
    assert (Hstep : dispatcher (tick cfg i s) = ERROR
                    /\ dispatcherror (tick cfg i s) = dispatcherror s
                    /\ read_commit (tick cfg i s) = read_commit s
                    /\ start (tick cfg i s) = start s
                    /\ read_en (tick cfg i s) = read_en s
                    /\ coeff (tick cfg i s) = coeff s
                    /\ ticklimit (tick cfg i s) = ticklimit s).
    { unfold tick. rewrite Herr. repeat split; reflexivity. }
    destruct Hstep as (S1 & S2 & S3 & S4 & S5 & S6 & S7).
    destruct (IH (tick cfg i s) S1) as (I1 & I2 & I3 & I4 & I5 & I6 & I7).
    cbv zeta. rewrite I1, I2, I3, I4, I5, I6, I7.
    repeat split; assumption.
Qed.

(** The parser copies [dispatcherror] into the status register at
    every edge. *)
Lemma status_follows_dispatcherror (i : inputs) (s : t) :
  Z.testbit (SPIParser.state (parser (tick cfg i s))) STATE.DISPATCHERROR
  = dispatcherror s.
Proof.
  assert (Hp : parser (tick cfg i s)
               = SPIParser.tick cfg (parser_inputs i s) (parser s)).
  { fsm_cases s i; reflexivity. }
  rewrite Hp, state_tick. unfold SPIParser.next_state.
  rewrite testbit_assign_bit_eq by (unfold STATE.DISPATCHERROR; lia).
  reflexivity.
Qed.

Lemma pow2_not_mult3 (w : Z) : 0 <= w -> 2 ^ w mod 3 <> 0.
Proof.
  intros Hw. pattern w. apply natlike_ind; [| |exact Hw].
  - simpl. discriminate.
  - intros x Hx IH. rewrite Z.pow_succ_r by assumption.
    intros H. apply IH.
    pose proof (Z.mod_pos_bound (2 ^ x) 3 ltac:(lia)).
    pose proof (Z.div_mod (2 ^ x) 3 ltac:(lia)).
    pose proof (Z.div_mod (2 * 2 ^ x) 3 ltac:(lia)).
    lia.
Qed.

(** [coeffcnt] is wide enough to count up to [len(polynomal.coeff)]:
    a multiple of 3 is no power of 2. *)
Lemma ncoeff_fits :
  (0 < motors cfg)%nat -> Z.of_nat (ncoeff cfg) < 2 ^ coeffcnt_width cfg.
Proof.
  intros Hm. unfold coeffcnt_width.
  set (n := Z.of_nat (ncoeff cfg)).
  assert (Hn : n = 3 * Z.of_nat (motors cfg)).
  { subst n. unfold ncoeff, Polynomal.order. lia. }
  pose proof (range_width_bound n ltac:(lia)) as Hb.
  pose proof (range_width_nonneg n) as Hw.
  pose proof (pow2_not_mult3 (range_width n) Hw) as H3.
  assert (n <> 2 ^ range_width n).
  { intros Heq. apply H3. rewrite <- Heq, Hn.
    rewrite Z.mul_comm. apply Z.mod_mul. lia. }
  lia.
Qed.

Lemma loaded_snoc (ins : list inputs) (i : inputs) :
  forall s n,
    loaded cfg (ins ++ [i]) s n
    = if header_edge cfg i (run cfg ins s) then 0
      else if load_edge cfg (run cfg ins s) then loaded cfg ins s n + 1
      else loaded cfg ins s n.
Proof.
  induction ins as [|j r IH]; intros s n.
  - reflexivity.
  - simpl app. simpl loaded. rewrite IH. reflexivity.
Qed.

(** In MOVE_POLYNOMAL, [coeffcnt] is the number of coefficient words
    stored since the MOVE header. *)
Lemma coeffcnt_counts (ins : list inputs) :
  let s := run cfg ins (reset cfg) in
  let n := loaded cfg ins (reset cfg) 0 in
  dispatcher s = MOVE_POLYNOMAL ->
  coeffcnt s = n /\ 0 <= n <= Z.of_nat (ncoeff cfg).
Proof.
  induction ins as [|i ins IH] using rev_ind.
  - simpl. discriminate.
  - cbv zeta in *. rewrite dispatcher_run_snoc, loaded_snoc.
    set (s := run cfg ins (reset cfg)) in *.
    set (n := loaded cfg ins (reset cfg) 0) in *.
    unfold header_edge, load_edge.
    fsm_cases s i; try discriminate.
    + intros _. lia.
    + intros _. destruct IH as [Hc Hn]; [reflexivity|].
      apply Z.ltb_lt in Heqb0.
      rewrite trunc_small.
      * cbn [andb]. lia.
      * destruct (motors cfg) eqn:Em.
        -- unfold ncoeff in Heqb0. rewrite Em in Heqb0. simpl in Heqb0. lia.
        -- pose proof ncoeff_fits as Hf. rewrite Em in Hf.
           specialize (Hf ltac:(lia)). lia.
    + intros _. destruct IH as [Hc Hn]; [reflexivity|]. cbn [andb]. lia.
Qed.

End DispatcherFacts.

Section ErrorPath.
Import Dispatcher.
Context (cfg : Config).

(** The edge that takes the unknown-opcode branch of PARSEHEAD. *)
Lemma unknown_opcode_edge (i : inputs) (s : t) :
  quiet s -> dispatcher s = PARSEHEAD -> opcode i <> MOVE cfg ->
  let s1 := tick cfg i s in
  dispatcher s1 = ERROR
  /\ dispatcherror s1 = true
  /\ read_commit s1 = false
  /\ start s1 = false
  /\ read_en s1 = true
  /\ coeff s1 = coeff s
  /\ ticklimit s1 = ticklimit s.
Proof.
  intros Hq Hfsm Hop. unfold quiet in Hq. rewrite Hfsm in Hq.
  destruct Hq as (Hrc & Hst & Hen).
  unfold tick. rewrite Hfsm.
  replace (opcode i =? MOVE cfg) with false
    by (symmetry; apply Z.eqb_neq; exact Hop).
  cbv zeta. cbn [dispatcher dispatcherror read_commit start read_en coeff
                 ticklimit].
  repeat split; assumption.
Qed.

(** From that edge on, whatever the inputs. *)
Lemma after_unknown_opcode (i : inputs) (ins : list inputs) (s : t) :
  quiet s -> dispatcher s = PARSEHEAD -> opcode i <> MOVE cfg ->
  let s' := run cfg (i :: ins) s in
  dispatcher s' = ERROR
  /\ dispatcherror s' = true
  /\ read_commit s' = false
  /\ start s' = false
  /\ read_en s' = true
  /\ coeff s' = coeff s
  /\ ticklimit s' = ticklimit s.
Proof.
  intros Hq Hfsm Hop.
  destruct (unknown_opcode_edge i s Hq Hfsm Hop)
    as (E1 & E2 & E3 & E4 & E5 & E6 & E7).
  destruct (error_holds cfg ins (tick cfg i s) E1)
    as (H1 & H2 & H3 & H4 & H5 & H6 & H7).
  rewrite dispatcher_run_cons. cbv zeta.
  rewrite H1, H2, H3, H4, H5, H6, H7.
  repeat split; assumption.
Qed.

End ErrorPath.

(** C3 as amended. Once the dispatcher finds, in PARSEHEAD, a header
    whose low byte is not MOVE, it is in ERROR after every later edge,
    [dispatcherror] stays set and the DISPATCHERROR bit of the status
    register is set from the second edge on; read commit and [start] are
    never raised and the tick limit and coefficients never change, so no
    further instruction is taken off the queue or dispatched to the
    integrator. *)
Theorem C3_error_is_terminal
  (cfg : Config) (s : Dispatcher.t) (i : Dispatcher.inputs)
  (ins : list Dispatcher.inputs) :
  Dispatcher.reachable cfg s ->
  Dispatcher.dispatcher s = Dispatcher.PARSEHEAD ->
  Dispatcher.opcode i <> MOVE cfg ->
  let s' := Dispatcher.run cfg (i :: ins) s in
  Dispatcher.dispatcher s' = Dispatcher.ERROR
  /\ Dispatcher.dispatcherror s' = true
  /\ Dispatcher.read_commit s' = false
  /\ Dispatcher.start s' = false
  /\ Dispatcher.coeff s' = Dispatcher.coeff s
  /\ Dispatcher.ticklimit s' = Dispatcher.ticklimit s
  /\ (ins <> [] ->
      Z.testbit (SPIParser.state (Dispatcher.parser s')) STATE.DISPATCHERROR
      = true).
Proof.
  intros Hreach Hfsm Hop s'.
  pose proof (reachable_quiet cfg s Hreach) as Hq.
  destruct (after_unknown_opcode cfg i ins s Hq Hfsm Hop)
    as (H1 & H2 & H3 & H4 & _ & H6 & H7).
  repeat split; try assumption.
  intros Hne. subst s'.
  destruct ins as [|j r] using rev_ind; [congruence|].
  change (i :: r ++ [j]) with ((i :: r) ++ [j]).
  rewrite dispatcher_run_snoc, status_follows_dispatcherror.
  apply (after_unknown_opcode cfg i r s Hq Hfsm Hop).
Qed.

(** C10. Along every run from reset, an edge raises read commit only in
    MOVE_POLYNOMAL, after [3 * motors] coefficient words have been
    stored since the MOVE header; and when PARSEHEAD takes the
    unknown-opcode branch to ERROR, read commit is low after that edge
    and after every later one. *)
Theorem C10_read_commit_only_after_move
  (cfg : Config) (ins later : list Dispatcher.inputs)
  (i : Dispatcher.inputs) :
  let s := Dispatcher.run cfg ins (Dispatcher.reset cfg) in
  (Dispatcher.read_commit (Dispatcher.tick cfg i s) = true ->
   Dispatcher.dispatcher s = Dispatcher.MOVE_POLYNOMAL
   /\ Dispatcher.loaded cfg ins (Dispatcher.reset cfg) 0
      = 3 * Z.of_nat (motors cfg))
  /\ (Dispatcher.dispatcher s = Dispatcher.PARSEHEAD ->
      Dispatcher.opcode i <> MOVE cfg ->
      Dispatcher.dispatcher (Dispatcher.run cfg (i :: later) s)
      = Dispatcher.ERROR
      /\ Dispatcher.read_commit (Dispatcher.run cfg (i :: later) s) = false).
Proof.
  intros s.
  assert (Hreach : Dispatcher.reachable cfg s) by (exists ins; reflexivity).
  pose proof (reachable_quiet cfg s Hreach) as Hq.
  split.
  - pose proof (coeffcnt_counts cfg ins) as Hcount. cbv zeta in Hcount.
    fold s in Hcount. unfold Dispatcher.quiet in Hq. revert Hq Hcount.
    unfold Dispatcher.tick. cbv zeta.
    destruct (Dispatcher.dispatcher s) eqn:Efsm.
    + cbn [Dispatcher.read_commit]. intros [Hrc _] _ H. congruence.
    + destruct (negb (Dispatcher.empty i)
                && SPIParser.execute (Dispatcher.parser s)
                && negb (Polynomal.busy (Dispatcher.polynomal s)));
        cbn [Dispatcher.read_commit]; discriminate.
    + destruct (Dispatcher.opcode i =? MOVE cfg);
        cbn [Dispatcher.read_commit]; intros (Hrc & _) _ H; congruence.
    + intros [Hrc _] Hcount.
      destruct (Hcount eq_refl) as [Hc Hn].
      destruct (Dispatcher.read_en s);
        [destruct (Z.ltb_spec (Dispatcher.coeffcnt s)
                     (Z.of_nat (Dispatcher.ncoeff cfg)))|];
        cbn [Dispatcher.read_commit negb]; try congruence.
      intros _. split; [reflexivity|].
      unfold Dispatcher.ncoeff, Polynomal.order in *. lia.
    + cbn [Dispatcher.read_commit]. intros (Hrc & _) _ H. congruence.
  - intros Hfsm Hop.
    destruct (after_unknown_opcode cfg i later s Hq Hfsm Hop)
      as (H1 & _ & H3 & _).
    split; assumption.
Qed.

(** C9 as amended. For every axis, the step output is the bit at
    position [BIT_SHIFT] of the axis's position accumulator: high at
    every edge at which that bit is set.  After a real-time tick it is
    that bit of the value the tick has assigned, whether or not the bit
    has changed. *)
Theorem C9_step_is_accumulator_bit
  (cfg : Config) (i : Polynomal.inputs) (s : Polynomal.t) (motor : nat) :
  (motor < motors cfg)%nat ->
  length (Polynomal.cntrs s) = (Polynomal.order * motors cfg)%nat ->
  Signal.getb (Polynomal.step cfg s) motor
  = Z.testbit (Signal.get (Polynomal.cntrs s) (motor * Polynomal.order))
      (BIT_SHIFT cfg)
  /\ (Polynomal.polynomen s = Polynomal.RUNNING ->
      0 <= Polynomal.ticks s < Polynomal.ticklimit i ->
      Polynomal.ticklimit i < 2 ^ Polynomal.ticks_width cfg ->
      divider cfg - 1 <= Polynomal.cntr s ->
      Signal.getb (Polynomal.step cfg (Polynomal.tick cfg i s)) motor
      = Z.testbit
          (Polynomal.advanced cfg (Polynomal.coeff i) (Polynomal.cntrs s)
             motor 0)
          (BIT_SHIFT cfg)).
Proof.
  intros Hm Hlen.
  assert (Hstep : forall s0,
            Signal.getb (Polynomal.step cfg s0) motor
            = Z.testbit
                (Signal.get (Polynomal.cntrs s0) (motor * Polynomal.order))
                (BIT_SHIFT cfg)).
  { intros s0. unfold Signal.getb, Polynomal.step, Polynomal.axes.
    rewrite lookup_map_seq by assumption. reflexivity. }
  split; [apply Hstep|].
  intros Hfsm Hticks Hfit Hcntr.
  rewrite Hstep, real_time_tick by (try assumption; lia).
  cbn [Polynomal.cntrs].
  replace (motor * Polynomal.order)%nat
    with (motor * Polynomal.order + 0)%nat at 1 by lia.
  rewrite get_advance by (try assumption; lia).
  reflexivity.
Qed.

(** ** Concrete runs on the test bench *)

(** C8. Two moves in a row on the test bench: [start] clears the
    position accumulator only, so the difference term left by the
    first move is still there when the second one runs, and the
    second, linear move of 4 steps ends with [totalsteps] at 12. *)
Theorem C8_start_keeps_difference_terms :
  Polynomal.polynomen Bench.second_started = Polynomal.RUNNING
  /\ Signal.get (Polynomal.cntrs Bench.second_started) 0 = 0
  /\ Signal.get (Polynomal.cntrs Bench.second_started) 1 = 2 ^ 42
  /\ Polynomal.finished Bench.second_done = true
  /\ Signal.get (Polynomal.totalsteps Bench.cfg Bench.second_done) 0 = 12
  /\ Z.shiftr (Polynomal.polynomial (2 ^ 41) 0 0 4) (BIT_SHIFT Bench.cfg + 1)
     = 4.
Proof. vm_compute. repeat split; reflexivity. Qed.

(** C6. Five POSITION commands in a row on the three-axis test bench:
    the counter runs 0, 1, 2, 3 before it wraps, and the index 3 past
    the end of [position] selects the last axis, so the replies are
    the axes 0, 1, 2, 2, 0. *)
Theorem C6_position_counter_overruns :
  map SPIParser.word_to_send
      (SPIParser.trace Bench.cfg Bench.five_queries Bench.waiting)
  = [10; 20; 30; 30; 10]
  /\ map SPIParser.mtrcntr
         (SPIParser.trace Bench.cfg Bench.five_queries Bench.waiting)
     = [1; 2; 3; 0; 1].
Proof. vm_compute. split; reflexivity. Qed.

(** C3, as stated, fails: in ERROR the read enable is still high, so
    with words left in the queue the FIFO goes on reading them. *)
Lemma C3_counterexample :
  let s := Dispatcher.run Bench.cfg
             (Bench.to_parsehead ++ [Bench.queued 0; Bench.queued 0])
             (Dispatcher.reset Bench.cfg) in
  Dispatcher.dispatcher s = Dispatcher.ERROR
  /\ Dispatcher.queue_read (Bench.queued 0) s <> false.
Proof. vm_compute. split; [reflexivity|discriminate]. Qed.

(** C4, as stated, fails: with a partial instruction under way and no
    free space the FULL bit reads true. *)
Lemma C4_counterexample :
  let s := SPIParser.run Bench.cfg Bench.one_word Bench.waiting in
  let i := Bench.quiet_bus 0 0 in
  SPIParser.bytesreceived s = 8
  /\ Z.testbit (SPIParser.state (SPIParser.tick Bench.cfg i s)) STATE.FULL
     <> ((SPIParser.space_available i <? SPIParser.words_in_move Bench.cfg)
         && (SPIParser.bytesreceived s =? 0)).
Proof. vm_compute. split; [reflexivity|discriminate]. Qed.

(** C7, as stated, fails: with only PARSING set and no pin high the
    reply word is 128, the status register reversed in the low byte,
    not in the high-order bits above a low byte of pin state. *)
Lemma C7_counterexample :
  let s := Bench.executing in
  let i := Bench.send COMMANDS.READ 100 0 in
  SPIParser.state s = 1
  /\ SPIParser.word_to_send (SPIParser.tick Bench.cfg i s) = 128
  /\ SPIParser.word_to_send (SPIParser.tick Bench.cfg i s)
     <> Signal.from_bits
          (Signal.reversed 8 (SPIParser.pinstate i)
           ++ Signal.reversed 8 (SPIParser.state s)).
Proof. vm_compute. repeat split; try reflexivity. discriminate. Qed.

(** C9, as stated, fails: between the fourth and the fifth real-time
    tick of a slow move bit [BIT_SHIFT] of the accumulator stays set,
    and the step output is high without a transition. *)
Lemma C9_counterexample :
  let bit s :=
    Z.testbit (Signal.get (Polynomal.cntrs s) 0) (BIT_SHIFT Bench.cfg) in
  Polynomal.ticks Bench.after_four = 4
  /\ Polynomal.ticks Bench.after_five = 5
  /\ Signal.getb (Polynomal.step Bench.cfg Bench.after_five) 0
     <> xorb (bit Bench.after_four) (bit Bench.after_five).
Proof. vm_compute. repeat split; try reflexivity. discriminate. Qed.

(** ** The theorems at work on the test bench *)

Ltac bench :=
  vm_compute; repeat split; try reflexivity; try discriminate; try lia.

(** A cubic move of 4 ticks on the first axis: the accumulator ends at
    [36 * 2^40] and [totalsteps] at 18. *)
Lemma C1_witness :
  let i := Bench.move false (3 * 2 ^ 40) (2 ^ 39) (2 ^ 38) 4 in
  let s' := Polynomal.run Bench.cfg (Bench.edges 4) i
              (Bench.started (3 * 2 ^ 40) (2 ^ 39) (2 ^ 38) 4) in
  Polynomal.polynomen s' = Polynomal.WAIT_START
  /\ Polynomal.finished s' = true
  /\ Polynomal.busy s' = false
  /\ Signal.get (Polynomal.cntrs s') 0 = 36 * 2 ^ 40
  /\ Signal.get (Polynomal.totalsteps Bench.cfg s') 0 = 18.
Proof.
  exact (C1_completed_move_polynomial Bench.cfg
           (Bench.move false (3 * 2 ^ 40) (2 ^ 39) (2 ^ 38) 4) 0
           (Bench.started (3 * 2 ^ 40) (2 ^ 39) (2 ^ 38) 4)
           ltac:(bench) ltac:(bench) ltac:(bench) ltac:(bench) ltac:(bench)
           ltac:(bench) ltac:(bench) ltac:(bench) ltac:(bench) ltac:(bench)
           ltac:(bench) ltac:(bench) ltac:(bench)).
Defined.

(** One word of a ten-word instruction: no commit, eight bytes counted. *)
Lemma C2_witness :
  Forall (fun s' => SPIParser.write_commit s' = false)
         (SPIParser.trace Bench.cfg Bench.one_word Bench.waiting)
  /\ SPIParser.bytesreceived
       (SPIParser.run Bench.cfg Bench.one_word Bench.waiting) = 8.
Proof.
  assert (Hreach : SPIParser.reachable Bench.cfg Bench.waiting).
  { exists [Bench.quiet_bus 100 0]. reflexivity. }
  destruct (C2_commit_only_on_full_instruction Bench.cfg Bench.waiting
              Bench.one_word (Bench.quiet_bus 100 0) Hreach ltac:(bench))
    as [Hbelow _].
  apply Hbelow. bench.
Defined.

(** An unknown header on the test bench, and three edges after it. *)
Lemma C3_witness :
  let s' := Dispatcher.run Bench.cfg
              [Bench.queued 0; Bench.queued 0; Bench.queued 7]
              (Dispatcher.run Bench.cfg Bench.to_parsehead
                 (Dispatcher.reset Bench.cfg)) in
  Dispatcher.dispatcher s' = Dispatcher.ERROR
  /\ Dispatcher.dispatcherror s' = true
  /\ Dispatcher.read_commit s' = false
  /\ Dispatcher.start s' = false
  /\ Z.testbit (SPIParser.state (Dispatcher.parser s')) STATE.DISPATCHERROR
     = true.
Proof.
  assert (Hreach : Dispatcher.reachable Bench.cfg
                     (Dispatcher.run Bench.cfg Bench.to_parsehead
                        (Dispatcher.reset Bench.cfg))).
  { exists Bench.to_parsehead. reflexivity. }
  destruct (C3_error_is_terminal Bench.cfg _ (Bench.queued 0)
              [Bench.queued 0; Bench.queued 7] Hreach
              ltac:(bench) ltac:(bench))
    as (H1 & H2 & H3 & H4 & _ & _ & H8).
  exact (conj H1 (conj H2 (conj H3 (conj H4 (H8 ltac:(discriminate)))))).
Defined.


(** The reply to READ with PARSING set: bit 7 of the word. *)
Lemma C7_witness :
  Z.testbit
    (SPIParser.word_to_send
       (SPIParser.tick Bench.cfg (Bench.send COMMANDS.READ 100 0)
          Bench.executing))
    7
  = Z.testbit (SPIParser.state Bench.executing) 0.
Proof.
  destruct (C7_reply_word_layout Bench.cfg Bench.executing
              (Bench.send COMMANDS.READ 100 0)
              ltac:(bench) ltac:(bench) ltac:(bench)
              ltac:(left; bench))
    as [Hlow _].
  exact (Hlow 7%nat ltac:(lia)).
Defined.

(** The step output after the fifth tick of the slow move. *)
Lemma C9_witness :
  Signal.getb (Polynomal.step Bench.cfg Bench.after_five) 0
  = Z.testbit (Signal.get (Polynomal.cntrs Bench.after_five) 0) 40.
Proof.
  destruct (C9_step_is_accumulator_bit Bench.cfg Bench.slow
              Bench.after_five 0 ltac:(bench) ltac:(bench))
    as [Hbit _].
  exact Hbit.
Defined.

(** A whole MOVE instruction on the test bench: the commit comes with
    the ninth coefficient stored. *)
Lemma C10_witness :
  Dispatcher.loaded Bench.cfg Bench.whole_move (Dispatcher.reset Bench.cfg) 0
  = 9.
Proof.
  destruct (C10_read_commit_only_after_move Bench.cfg Bench.whole_move []
              (Bench.queued 5))
    as [Hcommit _].
  destruct (Hcommit ltac:(bench)) as [_ Hloaded].
  exact Hloaded.
Defined.

(** * Further properties *)

(** ** The integrator, edge by edge *)
Section PolynomalEdges.
Import Signal Polynomal.
Context (cfg : Config).

Lemma runs_snoc (ins : list inputs) (i : inputs) (s : t) :
  runs cfg (ins ++ [i]) s = tick cfg i (runs cfg ins s).
Proof. unfold runs. rewrite foldl_snoc. reflexivity. Qed.

Lemma handshake_reset : handshake (reset cfg).
Proof.
  unfold handshake. simpl. repeat split; intros; congruence.
Qed.

Lemma handshake_tick (i : inputs) (s : t) :
  handshake s -> handshake (tick cfg i s).
Proof.
  intros (Hb & Hf & Ht). unfold handshake, tick.
  destruct (polynomen s) eqn:Efsm.
  - cbn [busy finished polynomen ticks].
    repeat split; intros; try congruence. apply Ht. congruence.
  - destruct (start i); cbn [busy finished polynomen ticks].
    + repeat split; intros; congruence.
    + repeat split; intros; try congruence.
      * apply Hb in H. congruence.
      * apply Ht. congruence.
  - assert (Hbusy : busy s = true) by (apply Hb; reflexivity).
    assert (Hfin : finished s = false).
    { destruct (finished s); [|reflexivity].
      specialize (Hf eq_refl). congruence. }
    destruct ((ticks s <? ticklimit i) && (divider cfg - 1 <=? cntr s));
      [|destruct (ticks s <? ticklimit i)];
      cbn [busy finished polynomen ticks];
      repeat split; intros; congruence.
Qed.

Lemma reachable_handshake (s : t) : reachable cfg s -> handshake s.
Proof.
  intros [ins ->]. induction ins as [|i ins IH] using rev_ind.
  - apply handshake_reset.
  - rewrite runs_snoc. apply handshake_tick. exact IH.
Qed.

Lemma wrap_range (w x : Z) :
  1 <= w -> - 2 ^ (w - 1) <= wrap w x < 2 ^ (w - 1).
Proof.
  intros Hw. unfold wrap.
  assert (Hp : 2 ^ w = 2 * 2 ^ (w - 1)).
  { rewrite <- Z.pow_succ_r by lia. f_equal. lia. }
  assert (Hh : 0 < 2 ^ (w - 1)) by (apply Z.pow_pos_nonneg; lia).
  pose proof (Z.mod_pos_bound (x + 2 ^ (w - 1)) (2 ^ w) ltac:(lia)).
  lia.
Qed.

Lemma zero_in_width : - 2 ^ max_bits cfg <= 0 < 2 ^ max_bits cfg.
Proof.
  assert (0 < 2 ^ max_bits cfg).
  { apply Z.pow_pos_nonneg; [lia|]. unfold max_bits. apply bit_length_nonneg. }
  lia.
Qed.

Lemma wrap_in_width (x : Z) :
  - 2 ^ max_bits cfg <= wrap (cntrs_width cfg) x < 2 ^ max_bits cfg.
Proof.
  pose proof (wrap_range (cntrs_width cfg) x (cntrs_width_pos cfg)) as H.
  replace (cntrs_width cfg - 1) with (max_bits cfg) in H
    by (unfold cntrs_width; lia).
  exact H.
Qed.

Lemma in_width_tick (i : inputs) (s : t) :
  in_width cfg s -> in_width cfg (tick cfg i s).
Proof.
  intros Hw. unfold in_width in *.
  assert (Hadv : Forall (fun x => - 2 ^ max_bits cfg <= x < 2 ^ max_bits cfg)
                   (advance cfg (coeff i) (cntrs s))).
  { unfold advance. generalize (axes cfg). intros l.
    revert Hw. generalize (cntrs s) at 1 3. intros acc Hacc.
    revert acc Hacc. induction l as [|m l IH]; intros acc Hacc.
    - exact Hacc.
    - simpl. apply IH. unfold advance_motor.
      repeat apply Forall_insert; try apply wrap_in_width. exact Hacc. }
  assert (Hclr : Forall (fun x => - 2 ^ max_bits cfg <= x < 2 ^ max_bits cfg)
                   (clear_position cfg (cntrs s))).
  { unfold clear_position. generalize (axes cfg). intros l.
    revert Hw. generalize (cntrs s). intros acc Hacc.
    revert acc Hacc. induction l as [|m l IH]; intros acc Hacc.
    - exact Hacc.
    - simpl. apply IH. apply Forall_insert; [exact Hacc|].
      apply zero_in_width. }
  unfold tick. destruct (polynomen s).
  - exact Hw.
  - destruct (start i); [exact Hclr|exact Hw].
  - destruct ((ticks s <? ticklimit i) && (divider cfg - 1 <=? cntr s));
      [exact Hadv|destruct (ticks s <? ticklimit i); exact Hw].
Qed.

Lemma reachable_in_width (s : t) : reachable cfg s -> in_width cfg s.
Proof.
  intros [ins ->]. induction ins as [|i ins IH] using rev_ind.
  - unfold in_width. simpl. apply Forall_replicate. apply zero_in_width.
  - rewrite runs_snoc. apply in_width_tick. exact IH.
Qed.

Lemma get_in_width (s : t) (idx : nat) :
  in_width cfg s ->
  - 2 ^ max_bits cfg <= get (cntrs s) idx < 2 ^ max_bits cfg.
Proof.
  intros Hw. unfold get. destruct (cntrs s !! idx) as [x|] eqn:E.
  - simpl. unfold in_width in Hw. rewrite Forall_lookup in Hw.
    exact (Hw idx x E).
  - simpl. apply zero_in_width.
Qed.

End PolynomalEdges.

Section PolynomalOutputs.
Import Signal Polynomal.
Context (cfg : Config).

Lemma clear_fold_other (l : list nat) (idx : nat) :
  (idx mod 3 <> 0)%nat ->
  forall acc : list Z,
    foldl (fun acc motor => <[(motor * order)%nat := 0]> acc) acc l !! idx
    = acc !! idx.
Proof.
  intros Hidx. induction l as [|m l IH]; intros acc.
  - reflexivity.
  - simpl. rewrite IH. apply list_lookup_insert_ne.
    unfold order. intros Heq. apply Hidx. rewrite <- Heq.
    apply Nat.Div0.mod_mul.
Qed.

Lemma length_clear_fold (l : list nat) :
  forall acc : list Z,
    length (foldl (fun acc motor => <[(motor * order)%nat := 0]> acc) acc l)
    = length acc.
Proof.
  induction l as [|m l IH]; intros acc.
  - reflexivity.
  - simpl. rewrite IH. apply length_insert.
Qed.

Lemma clear_fold_position (l : list nat) (motor : nat) :
  In motor l ->
  forall acc : list Z,
    (motor * order < length acc)%nat ->
    foldl (fun acc motor => <[(motor * order)%nat := 0]> acc) acc l
      !! (motor * order)%nat
    = Some 0.
Proof.
  induction l as [|m l IH]; intros Hin acc Hlen.
  - destruct Hin.
  - simpl. destruct (in_dec Nat.eq_dec motor l) as [Hl|Hl].
    + apply IH; [exact Hl|]. rewrite length_insert. exact Hlen.
    + destruct Hin as [->|Hin]; [|contradiction].
      clear IH. revert acc Hlen.
      assert (Hkeep : forall (l0 : list nat) (acc0 : list Z),
                 acc0 !! (motor * order)%nat = Some 0 ->
                 foldl (fun acc motor => <[(motor * order)%nat := 0]> acc)
                   acc0 l0 !! (motor * order)%nat = Some 0).
      { induction l0 as [|m0 l0 IH0]; intros acc0 H0; [exact H0|].
        simpl. apply IH0.
        destruct (Nat.eq_dec (m0 * order)%nat (motor * order)%nat)
          as [Heq|Hne].
        - rewrite Heq. apply list_lookup_insert_eq.
          apply lookup_lt_Some in H0. exact H0.
        - rewrite list_lookup_insert_ne by exact Hne. exact H0. }
      intros acc Hlen. apply Hkeep.
      apply list_lookup_insert_eq. exact Hlen.
Qed.

Lemma dir_tick (i : inputs) (s : t) : dir (tick cfg i s) = next_dir cfg s.
Proof.
  unfold tick.
  destruct (polynomen s), (start i),
    ((ticks s <? ticklimit i) && (divider cfg - 1 <=? cntr s)),
    (ticks s <? ticklimit i); reflexivity.
Qed.

Lemma shiftr_half_step (x n : Z) :
  0 <= n ->
  Z.shiftr x n = 2 * Z.shiftr x (n + 1) + Z.b2z (Z.testbit x n).
Proof.
  intros Hn.
  rewrite <- (Z.shiftr_shiftr x n 1) by lia.
  rewrite <- Z.div2_spec.
  replace (Z.testbit x n) with (Z.odd (Z.shiftr x n)).
  - apply Z.div2_odd.
  - rewrite <- Z.bit0_odd, Z.shiftr_spec by lia. f_equal.
Qed.

End PolynomalOutputs.

(** X1. The handshake of the integrator: in every state reachable from
    reset, whatever the inputs, [busy] is high exactly in RUNNING,
    [finished] is high only in WAIT_START and is low again after the
    next edge, and the tick counter is 0 outside RUNNING. *)
Theorem X1_busy_finished_handshake
  (cfg : Config) (s : Polynomal.t) (i : Polynomal.inputs) :
  Polynomal.reachable cfg s ->
  (Polynomal.busy s = true <-> Polynomal.polynomen s = Polynomal.RUNNING)
  /\ (Polynomal.finished s = true ->
      Polynomal.polynomen s = Polynomal.WAIT_START
      /\ Polynomal.finished (Polynomal.tick cfg i s) = false)
  /\ (Polynomal.polynomen s <> Polynomal.RUNNING -> Polynomal.ticks s = 0).
Proof.
  intros Hreach.
  destruct (reachable_handshake cfg s Hreach) as (Hb & Hf & Ht).
  split; [exact Hb|]. split; [|exact Ht].
  intros Hfin. specialize (Hf Hfin). split; [exact Hf|].
  unfold Polynomal.tick. rewrite Hf.
  destruct (Polynomal.start i); reflexivity.
Qed.

(** X2. [start] in WAIT_START: the integrator goes to RUNNING with
    [busy] raised, the position accumulator and the delayed copy of
    every axis are cleared, and the two difference accumulators of the
    axis keep the values they have. *)
Theorem X2_start_clears_position_only
  (cfg : Config) (i : Polynomal.inputs) (s : Polynomal.t) (motor : nat) :
  Polynomal.polynomen s = Polynomal.WAIT_START ->
  Polynomal.start i = true ->
  (motor < motors cfg)%nat ->
  length (Polynomal.cntrs s) = (Polynomal.order * motors cfg)%nat ->
  let s1 := Polynomal.tick cfg i s in
  Polynomal.polynomen s1 = Polynomal.RUNNING
  /\ Polynomal.busy s1 = true
  /\ Polynomal.finished s1 = false
  /\ Signal.get (Polynomal.cntrs s1) (motor * Polynomal.order) = 0
  /\ Signal.get (Polynomal.counter_d s1) motor = 0
  /\ Signal.get (Polynomal.cntrs s1) (motor * Polynomal.order + 1)
     = Signal.get (Polynomal.cntrs s) (motor * Polynomal.order + 1)
  /\ Signal.get (Polynomal.cntrs s1) (motor * Polynomal.order + 2)
     = Signal.get (Polynomal.cntrs s) (motor * Polynomal.order + 2).
Proof.
  intros Hfsm Hstart Hm Hlen s1. subst s1.
  unfold Polynomal.tick. rewrite Hfsm, Hstart.
  cbn [Polynomal.polynomen Polynomal.busy Polynomal.finished
       Polynomal.cntrs Polynomal.counter_d].
  unfold Signal.get, Polynomal.clear_position.
  rewrite clear_fold_position.
  - rewrite lookup_replicate_2 by exact Hm.
    rewrite !clear_fold_other.
    + repeat split; reflexivity.
    + unfold Polynomal.order.
      replace (motor * 3 + 2)%nat with (2 + motor * 3)%nat by lia.
      rewrite Nat.Div0.mod_add. discriminate.
    + unfold Polynomal.order.
      replace (motor * 3 + 1)%nat with (1 + motor * 3)%nat by lia.
      rewrite Nat.Div0.mod_add. discriminate.
  - unfold Polynomal.axes. apply in_seq. lia.
  - rewrite Hlen. unfold Polynomal.order. lia.
Qed.

(** X3. The axes do not interact: what a real-time tick leaves in the
    accumulators of an axis depends on the coefficients and the
    accumulators of that axis only. *)
Theorem X3_axes_do_not_interact
  (cfg : Config) (c c' k k' : list Z) (motor j : nat) :
  (motor < motors cfg)%nat -> (j < 3)%nat ->
  length k = (Polynomal.order * motors cfg)%nat ->
  length k' = (Polynomal.order * motors cfg)%nat ->
  (forall d, (d < 3)%nat ->
     Signal.get c (motor * Polynomal.order + d)
     = Signal.get c' (motor * Polynomal.order + d)) ->
  (forall d, (d < 3)%nat ->
     Signal.get k (motor * Polynomal.order + d)
     = Signal.get k' (motor * Polynomal.order + d)) ->
  Signal.get (Polynomal.advance cfg c k) (motor * Polynomal.order + j)
  = Signal.get (Polynomal.advance cfg c' k') (motor * Polynomal.order + j).
Proof.
  intros Hm Hj Hlen Hlen' Hc Hk.
  rewrite !get_advance by assumption.
  unfold Polynomal.advanced, Polynomal.op1, Polynomal.op2, Polynomal.op3.
  pose proof (Hc 0%nat ltac:(lia)) as Hc0. rewrite Nat.add_0_r in Hc0.
  pose proof (Hk 0%nat ltac:(lia)) as Hk0. rewrite Nat.add_0_r in Hk0.
  rewrite Hc0, Hk0, (Hc 1%nat), (Hc 2%nat), (Hk 1%nat), (Hk 2%nat) by lia.
  reflexivity.
Qed.

(** X4. The direction output follows the change of the position
    accumulator with one edge of delay: two edges after a state, [dir]
    of an axis is 0 if the accumulator went down over the first edge,
    1 if it went up, and what it was if it stayed (the edge that takes
    [start] apart, which clears the delayed copy). *)
Theorem X4_direction_follows_change
  (cfg : Config) (i j : Polynomal.inputs) (s : Polynomal.t) (motor : nat) :
  (motor < motors cfg)%nat ->
  (Polynomal.polynomen s = Polynomal.WAIT_START ->
   Polynomal.start i = false) ->
  let s1 := Polynomal.tick cfg i s in
  let s2 := Polynomal.tick cfg j s1 in
  let before := Signal.get (Polynomal.cntrs s) (motor * Polynomal.order) in
  let now := Signal.get (Polynomal.cntrs s1) (motor * Polynomal.order) in
  Signal.getb (Polynomal.dir s2) motor
  = if before >? now then false
    else if before <? now then true
    else Signal.getb (Polynomal.dir s1) motor.
Proof.
  intros Hm Hstart s1 s2 before now. subst s2.
  rewrite dir_tick. unfold Polynomal.next_dir, Signal.getb at 1.
  unfold Polynomal.axes. rewrite lookup_map_seq by exact Hm.
  cbn [default]. rewrite Nat.add_0_l. fold now.
  assert (Hd : Signal.get (Polynomal.counter_d s1) motor = before).
  { subst s1 before. unfold Polynomal.tick.
    destruct (Polynomal.polynomen s) eqn:Efsm.
    - unfold Signal.get at 1. cbn [Polynomal.counter_d].
      unfold Polynomal.next_counter_d, Polynomal.axes.
      rewrite lookup_map_seq by exact Hm. reflexivity.
    - rewrite (Hstart eq_refl).
      unfold Signal.get at 1. cbn [Polynomal.counter_d].
      unfold Polynomal.next_counter_d, Polynomal.axes.
      rewrite lookup_map_seq by exact Hm. reflexivity.
    - destruct ((Polynomal.ticks s <? Polynomal.ticklimit i)
                && (divider cfg - 1 <=? Polynomal.cntr s));
        [|destruct (Polynomal.ticks s <? Polynomal.ticklimit i)];
        unfold Signal.get at 1; cbn [Polynomal.counter_d];
        unfold Polynomal.next_counter_d, Polynomal.axes;
        rewrite lookup_map_seq by exact Hm; reflexivity. }
  rewrite Hd. reflexivity.
Qed.

(** X5. [totalsteps] counts the whole periods of the step level: in every
    reachable state the position accumulator of an axis, shifted right
    by [BIT_SHIFT], is twice [totalsteps] plus the step output. *)
Theorem X5_totalsteps_counts_step_periods
  (cfg : Config) (s : Polynomal.t) (motor : nat) :
  Polynomal.reachable cfg s ->
  0 <= BIT_SHIFT cfg -> 0 <= MOVE_TICKS cfg ->
  (motor < motors cfg)%nat ->
  Z.shiftr (Signal.get (Polynomal.cntrs s) (motor * Polynomal.order))
           (BIT_SHIFT cfg)
  = 2 * Signal.get (Polynomal.totalsteps cfg s) motor
    + Z.b2z (Signal.getb (Polynomal.step cfg s) motor).
Proof.
  intros Hreach Hbs Hmt Hm.
  pose proof (get_in_width cfg s (motor * Polynomal.order)
                (reachable_in_width cfg s Hreach)) as Hrange.
  rewrite get_totalsteps by exact Hm.
  rewrite totalsteps_fits by assumption.
  unfold Signal.getb, Polynomal.step, Polynomal.axes.
  rewrite lookup_map_seq by exact Hm. cbn [default]. rewrite Nat.add_0_l.
  apply shiftr_half_step. exact Hbs.
Qed.

(** ** The command processor, edge by edge *)
Section ParserEdges.
Import Signal SPIParser.
Context (cfg : Config).

Lemma reserved_bits_tick (i : inputs) (s : t) (k : Z) :
  3 <= k ->
  Z.testbit (state (tick cfg i s)) k = Z.testbit (state s) k.
Proof.
  intros Hk. rewrite state_tick. unfold next_state.
  rewrite !testbit_assign_bit_neq
    by (unfold STATE.PARSING, STATE.FULL, STATE.DISPATCHERROR; lia).
  reflexivity.
Qed.

Lemma reachable_reserved_bits (s : t) (k : Z) :
  reachable cfg s -> 3 <= k -> Z.testbit (state s) k = false.
Proof.
  intros [ins ->] Hk. induction ins as [|i ins IH] using rev_ind.
  - simpl. apply Z.testbit_0_l.
  - rewrite run_snoc, reserved_bits_tick by exact Hk. exact IH.
Qed.

Lemma motors_le_width : Z.of_nat (motors cfg) <= 2 ^ mtrcntr_width cfg.
Proof.
  unfold mtrcntr_width. destruct (motors cfg) as [|m].
  - simpl. lia.
  - pose proof (range_width_bound (Z.of_nat (S m)) ltac:(lia)). lia.
Qed.

Lemma select_in_range (arr : list Z) (k : nat) :
  (k < length arr)%nat -> select arr (Z.of_nat k) = get arr k.
Proof.
  intros Hk. unfold select, get.
  rewrite Nat2Z.id, Nat.min_l by lia. reflexivity.
Qed.

(** One POSITION command taken with the counter at an axis. *)
Lemma position_edge (q : inputs) (s : t) (k : nat) :
  parser s = WAIT_COMMAND -> mtrcntr s = Z.of_nat k ->
  position_query cfg q -> (k < motors cfg)%nat ->
  parser (tick cfg q s) = WAIT_COMMAND
  /\ word_to_send (tick cfg q s)
     = trunc (word_size cfg) (get (position q) k)
  /\ mtrcntr (tick cfg q s)
     = trunc (mtrcntr_width cfg) (Z.of_nat k + 1).
Proof.
  intros Hfsm Hcnt (Hready & Hcmd & Hlen) Hk.
  unfold tick. rewrite Hfsm, Hready, Hcmd.
  cbn [parser word_to_send mtrcntr]. rewrite Hcnt.
  replace (Z.of_nat k <? Z.of_nat (motors cfg)) with true
    by (symmetry; apply Z.ltb_lt; lia).
  rewrite select_in_range by lia.
  repeat split; reflexivity.
Qed.

Lemma queries_from (qs : list inputs) :
  forall (s : t) (k : nat),
    parser s = WAIT_COMMAND ->
    (qs <> [] -> mtrcntr s = Z.of_nat k) ->
    Forall (position_query cfg) qs ->
    (k + length qs <= motors cfg)%nat ->
    map word_to_send (trace cfg qs s)
    = imap (fun j q => trunc (word_size cfg) (get (position q) (k + j))) qs.
Proof.
  induction qs as [|q r IH]; intros s k Hfsm Hcnt Hqs Hlen.
  - reflexivity.
  - inversion Hqs as [|q0 r0 Hq Hr]; subst.
    simpl in Hlen.
    destruct (position_edge q s k Hfsm (Hcnt ltac:(discriminate)) Hq
                ltac:(lia)) as (H1 & H2 & H3).
    simpl trace. simpl map. rewrite imap_cons, H2, Nat.add_0_r.
    f_equal. rewrite (IH (tick cfg q s) (S k)); try assumption.
    + apply imap_ext. intros j x _. simpl. f_equal. f_equal. lia.
    + intros Hne. rewrite H3. rewrite trunc_small.
      * lia.
      * pose proof motors_le_width. destruct r; [congruence|].
        simpl in Hlen. lia.
    + lia.
Qed.

End ParserEdges.

(** X6. The status register: in every reachable state of the parser its
    bits 3 and above read 0, and after every edge bit PARSING is the
    [execute] flag the parser had before the edge and bit DISPATCHERROR
    is the [dispatcherror] input of the edge. *)
Theorem X6_status_register_bits
  (cfg : Config) (s : SPIParser.t) (i : SPIParser.inputs) :
  SPIParser.reachable cfg s ->
  (forall k, 3 <= k -> Z.testbit (SPIParser.state s) k = false)
  /\ Z.testbit (SPIParser.state (SPIParser.tick cfg i s)) STATE.PARSING
     = SPIParser.execute s
  /\ Z.testbit (SPIParser.state (SPIParser.tick cfg i s)) STATE.DISPATCHERROR
     = SPIParser.dispatcherror i.
Proof.
  intros Hreach. split; [|split].
  - intros k Hk. apply (reachable_reserved_bits cfg); assumption.
  - rewrite state_tick. unfold SPIParser.next_state.
    rewrite !testbit_assign_bit_neq
      by (unfold STATE.PARSING, STATE.FULL, STATE.DISPATCHERROR; lia).
    apply testbit_assign_bit_eq. unfold STATE.PARSING. lia.
  - rewrite state_tick. unfold SPIParser.next_state.
    apply testbit_assign_bit_eq. unfold STATE.DISPATCHERROR. lia.
Qed.

(** X7. When an instruction is a whole number [n] of words, the
    bytes-received counter of every reachable state is a whole number
    of words, at most [n] of them and fewer outside the WRITE state;
    an edge that raises the write commit finds exactly [n] words
    counted. *)
Theorem X7_counter_in_whole_words
  (cfg : Config) (n : Z) (s : SPIParser.t) :
  0 < WORD_BYTES cfg -> 1 <= n -> bytesinmove cfg = n * WORD_BYTES cfg ->
  SPIParser.reachable cfg s ->
  exists k,
    SPIParser.bytesreceived s = k * WORD_BYTES cfg
    /\ 0 <= k <= n
    /\ (SPIParser.parser s <> SPIParser.WRITE -> k < n)
    /\ (forall i, SPIParser.write_commit (SPIParser.tick cfg i s) = true ->
                  k = n).
Proof.
  intros HW Hn Hmove Hreach.
  pose proof (reachable_pulses_idle cfg s Hreach) as (Hc & _ & _ & _).
  assert (Hinv : exists k,
             SPIParser.bytesreceived s = k * WORD_BYTES cfg
             /\ 0 <= k <= n
             /\ (SPIParser.parser s <> SPIParser.WRITE -> k < n)).
  { clear Hc. destruct Hreach as [ins ->].
    induction ins as [|i ins IH] using rev_ind.
    - exists 0. simpl. repeat split; lia.
    - rewrite run_snoc. destruct IH as (k & Hk & Hrange & Hlt).
      set (s0 := SPIParser.run cfg ins SPIParser.reset) in *.
      unfold SPIParser.tick. destruct (SPIParser.parser s0) eqn:Efsm.
      + exists 0. cbn [SPIParser.bytesreceived SPIParser.parser].
        repeat split; lia.
      + exists k. specialize (Hlt ltac:(congruence)).
        destruct (SPIParser.command_ready i);
          [destruct (SPIParser.command i)|];
          cbn [SPIParser.bytesreceived SPIParser.parser];
          repeat split; try assumption; try lia.
      + specialize (Hlt ltac:(congruence)).
        destruct (SPIParser.word_complete i);
          cbn [SPIParser.bytesreceived SPIParser.parser].
        * exists (k + 1). rewrite Hk, trunc_small.
          -- repeat split; try lia. intros H. congruence.
          -- pose proof (range_width_bound (bytesinmove cfg + 1)
                           ltac:(nia)).
             unfold SPIParser.bytesreceived_width. nia.
        * exists k. repeat split; try assumption; lia.
      + destruct (Z.leb_spec (bytesinmove cfg) (SPIParser.bytesreceived s0));
          cbn [SPIParser.bytesreceived SPIParser.parser].
        * exists 0. repeat split; lia.
        * exists k. repeat split; try assumption; try lia.
          intros _. nia. }
  destruct Hinv as (k & Hk & Hrange & Hlt).
  exists k. repeat split; try assumption; try lia.
  intros i. unfold SPIParser.tick.
  destruct (SPIParser.parser s) eqn:Efsm.
  - cbn [SPIParser.write_commit]. intros H. apply Hc in H. congruence.
  - destruct (SPIParser.command_ready i);
      [destruct (SPIParser.command i)|];
      cbn [SPIParser.write_commit]; discriminate.
  - destruct (SPIParser.word_complete i); cbn [SPIParser.write_commit];
      intros H; apply Hc in H; congruence.
  - destruct (Z.leb_spec (bytesinmove cfg) (SPIParser.bytesreceived s));
      cbn [SPIParser.write_commit].
    + intros _. nia.
    + intros H'. apply Hc in H'. congruence.
Qed.

(** X8. With the motor counter at 0, up to [motors] POSITION commands
    in a row are answered with the positions of the axes 0, 1, 2, ...
    in this order, each cut to the word size. *)
Theorem X8_position_queries_in_order
  (cfg : Config) (qs : list SPIParser.inputs) (s : SPIParser.t) :
  SPIParser.parser s = SPIParser.WAIT_COMMAND ->
  SPIParser.mtrcntr s = 0 ->
  Forall (SPIParser.position_query cfg) qs ->
  (length qs <= motors cfg)%nat ->
  map SPIParser.word_to_send (SPIParser.trace cfg qs s)
  = imap (fun j q =>
            Signal.trunc (SPIParser.word_size cfg)
              (Signal.get (SPIParser.position q) j))
         qs.
Proof.
  intros Hfsm Hcnt Hqs Hlen.
  apply (queries_from cfg qs s 0%nat); try assumption.
  intros _. exact Hcnt.
Qed.

(** X9. START and STOP are idempotent: a STOP taken while [execute] is
    off, and a START taken right after a START, leave the parser as an
    EMPTY command on the same bus does; and after a START [execute] is
    on, after a STOP it is off. *)
Theorem X9_start_stop_idempotent
  (cfg : Config) (s : SPIParser.t) (i : SPIParser.inputs) :
  SPIParser.parser s = SPIParser.WAIT_COMMAND ->
  SPIParser.command_ready i = true ->
  (SPIParser.command i = COMMANDS.STOP ->
   SPIParser.execute (SPIParser.tick cfg i s) = false
   /\ (SPIParser.execute s = false ->
       SPIParser.tick cfg i s
       = SPIParser.tick cfg (SPIParser.with_command COMMANDS.EMPTY i) s))
  /\ (SPIParser.command i = COMMANDS.START ->
      SPIParser.execute (SPIParser.tick cfg i s) = true
      /\ SPIParser.tick cfg i (SPIParser.tick cfg i s)
         = SPIParser.tick cfg (SPIParser.with_command COMMANDS.EMPTY i)
             (SPIParser.tick cfg i s)).
Proof.
  intros Hfsm Hready. split.
  - intros Hcmd. unfold SPIParser.tick.
    rewrite Hfsm. cbn [SPIParser.with_command SPIParser.command_ready
                       SPIParser.command].
    rewrite Hready, Hcmd. split; [reflexivity|].
    intros Hex. unfold SPIParser.next_state.
    cbn [SPIParser.space_available SPIParser.dispatcherror].
    rewrite Hex. reflexivity.
  - intros Hcmd.
    assert (Hs1 : SPIParser.parser (SPIParser.tick cfg i s)
                  = SPIParser.WAIT_COMMAND
                  /\ SPIParser.execute (SPIParser.tick cfg i s) = true).
    { unfold SPIParser.tick. rewrite Hfsm, Hready, Hcmd.
      split; reflexivity. }
    destruct Hs1 as [Hfsm1 Hex1]. split; [exact Hex1|].
    set (s1 := SPIParser.tick cfg i s) in *.
    unfold SPIParser.tick. rewrite Hfsm1.
    cbn [SPIParser.with_command SPIParser.command_ready SPIParser.command].
    rewrite Hready, Hcmd. unfold SPIParser.next_state.
    cbn [SPIParser.space_available SPIParser.dispatcherror].
    rewrite Hex1. reflexivity.
Qed.

(** ** The dispatcher and its submodules *)
Section DispatcherEdges.
Import Signal Dispatcher.
Context (cfg : Config).

Ltac by_state s i :=
  unfold tick; cbv zeta;
  destruct (dispatcher s);
  [ | destruct (negb (empty i) && SPIParser.execute (parser s)
                && negb (Polynomal.busy (polynomal s)))
    | destruct (opcode i =? MOVE cfg)
    | destruct (read_en s);
      [destruct (coeffcnt s <? Z.of_nat (ncoeff cfg))|]
    | ];
  reflexivity.

(** The submodules take their own edge inside the dispatcher's. *)
Lemma parser_tick (i : inputs) (s : t) :
  parser (tick cfg i s) = SPIParser.tick cfg (parser_inputs i s) (parser s).
Proof. by_state s i. Qed.

Lemma polynomal_tick (i : inputs) (s : t) :
  polynomal (tick cfg i s)
  = Polynomal.tick cfg (polynomal_inputs s) (polynomal s).
Proof. by_state s i. Qed.

Lemma position_tick (i : inputs) (s : t) :
  position (tick cfg i s) = next_position cfg s.
Proof. by_state s i. Qed.

Lemma finished_d_tick (i : inputs) (s : t) :
  pol_finished_d (tick cfg i s) = Polynomal.finished (polynomal s).
Proof. by_state s i. Qed.

Lemma reachable_polynomal (s : t) :
  reachable cfg s -> Polynomal.reachable cfg (polynomal s).
Proof.
  intros [ins ->]. induction ins as [|i ins IH] using rev_ind.
  - exists []. reflexivity.
  - rewrite dispatcher_run_snoc, polynomal_tick.
    destruct IH as [pins Hp]. rewrite Hp.
    exists (pins ++ [polynomal_inputs (run cfg ins (reset cfg))]).
    symmetry. apply runs_snoc.
Qed.

(** The delayed copy of [finished] is never high together with
    [finished]: the integrator shows [finished] for one edge. *)
Lemma finished_edge (s : t) :
  reachable cfg s ->
  pol_finished_d s = true -> Polynomal.finished (polynomal s) = false.
Proof.
  intros [ins ->]. induction ins as [|i ins IH] using rev_ind.
  - simpl. discriminate.
  - rewrite dispatcher_run_snoc, finished_d_tick, polynomal_tick.
    set (s0 := run cfg ins (reset cfg)) in *. intros Hfin.
    assert (Hreach : Polynomal.reachable cfg (polynomal s0)).
    { apply reachable_polynomal. exists ins. reflexivity. }
    destruct (reachable_handshake cfg _ Hreach) as (_ & Hf & _).
    specialize (Hf Hfin). unfold Polynomal.tick. rewrite Hf.
    destruct (Polynomal.start (polynomal_inputs s0)); reflexivity.
Qed.

Lemma slice_header (op limit : Z) :
  0 <= op < 2 ^ 8 ->
  (op + 2 ^ 8 * limit) mod 2 ^ 8 = op
  /\ Z.shiftr (op + 2 ^ 8 * limit) 8 = limit.
Proof.
  intros Hop. split.
  - rewrite Z.mul_comm, Z.mod_add by lia. apply Z.mod_small. exact Hop.
  - rewrite Z.shiftr_div_pow2 by lia.
    rewrite Z.mul_comm, Z.div_add by lia.
    rewrite Z.div_small by exact Hop. lia.
Qed.

(** The two edges that take one coefficient word off the queue. *)
Lemma word_pair (p1 p2 : inputs) (s : t) (k : nat) :
  dispatcher s = MOVE_POLYNOMAL -> read_en s = false ->
  coeffcnt s = Z.of_nat k -> (k < ncoeff cfg)%nat ->
  let s' := tick cfg p2 (tick cfg p1 s) in
  dispatcher s' = MOVE_POLYNOMAL
  /\ read_en s' = false
  /\ coeffcnt s' = Z.of_nat (S k)
  /\ coeff s' = <[k := wrap 64 (read_data p2)]> (coeff s)
  /\ ticklimit s' = ticklimit s
  /\ start s' = start s
  /\ read_commit s' = read_commit s
  /\ dispatcherror s' = dispatcherror s.
Proof.
  intros Hfsm Hen Hcnt Hk.
  assert (H1 : dispatcher (tick cfg p1 s) = MOVE_POLYNOMAL
               /\ read_en (tick cfg p1 s) = true
               /\ coeffcnt (tick cfg p1 s) = coeffcnt s
               /\ coeff (tick cfg p1 s) = coeff s
               /\ ticklimit (tick cfg p1 s) = ticklimit s
               /\ start (tick cfg p1 s) = start s
               /\ read_commit (tick cfg p1 s) = read_commit s
               /\ dispatcherror (tick cfg p1 s) = dispatcherror s).
  { unfold tick. rewrite Hfsm, Hen. repeat split; reflexivity. }
  destruct H1 as (A1 & A2 & A3 & A4 & A5 & A6 & A7 & A8).
  set (s1 := tick cfg p1 s) in *. cbv zeta.
  unfold tick. rewrite A1, A2, A3, Hcnt.
  replace (Z.of_nat k <? Z.of_nat (ncoeff cfg)) with true
    by (symmetry; apply Z.ltb_lt; lia).
  cbv zeta. cbn [negb dispatcher read_en coeffcnt coeff ticklimit start
                 read_commit dispatcherror].
  rewrite A4, A5, A6, A7, A8, Nat2Z.id.
  repeat split; try reflexivity.
  rewrite trunc_small; [lia|].
  assert (Hm : (0 < motors cfg)%nat).
  { unfold ncoeff, Polynomal.order in Hk. lia. }
  pose proof (ncoeff_fits cfg Hm). lia.
Qed.

Lemma words_from (pairs : list (inputs * inputs)) :
  forall (s : t) (k : nat),
    dispatcher s = MOVE_POLYNOMAL -> read_en s = false ->
    coeffcnt s = Z.of_nat k ->
    (k + length pairs <= ncoeff cfg)%nat ->
    length (coeff s) = ncoeff cfg ->
    let s' := run cfg (word_edges pairs) s in
    dispatcher s' = MOVE_POLYNOMAL
    /\ read_en s' = false
    /\ coeffcnt s' = Z.of_nat (k + length pairs)
    /\ coeff s'
       = take k (coeff s) ++ stored pairs
         ++ drop (k + length pairs) (coeff s)
    /\ ticklimit s' = ticklimit s
    /\ start s' = start s
    /\ read_commit s' = read_commit s
    /\ dispatcherror s' = dispatcherror s.
Proof.
  induction pairs as [|[p1 p2] r IH]; intros s k Hfsm Hen Hcnt Hlen Hco.
  - simpl. rewrite Nat.add_0_r, take_drop.
    repeat split; try reflexivity; assumption.
  - simpl in Hlen.
    destruct (word_pair p1 p2 s k Hfsm Hen Hcnt ltac:(lia))
      as (A1 & A2 & A3 & A4 & A5 & A6 & A7 & A8).
    change (run cfg (word_edges ((p1, p2) :: r)) s)
      with (run cfg (word_edges r) (tick cfg p2 (tick cfg p1 s))).
    set (s2 := tick cfg p2 (tick cfg p1 s)) in *.
    destruct (IH s2 (S k) A1 A2 A3 ltac:(lia)
                ltac:(rewrite A4, length_insert; exact Hco))
      as (B1 & B2 & B3 & B4 & B5 & B6 & B7 & B8).
    cbv zeta. rewrite B1, B2, B3, B4, B5, B6, B7, B8, A4, A5, A6, A7, A8.
    repeat split; try reflexivity.
    + f_equal. simpl. lia.
    + rewrite (take_S_r _ k (wrap 64 (read_data p2)))
        by (apply list_lookup_insert_eq; lia).
      rewrite take_insert_ge by lia.
      rewrite drop_insert_lt by lia.
      rewrite <- app_assoc. simpl.
      replace (S (k + length r))%nat with (k + S (length r))%nat by lia.
      reflexivity.
Qed.

End DispatcherEdges.

(** X10. The position adder: in every reachable state of the design an
    edge changes the absolute positions exactly when the integrator
    shows [finished]; it then adds [totalsteps] of each axis to the
    position of that axis, in 64 bits, and [finished] is low after the
    edge, so that a move is added once. *)
Theorem X10_position_added_once_per_move
  (cfg : Config) (s : Dispatcher.t) (i : Dispatcher.inputs) :
  Dispatcher.reachable cfg s ->
  (Polynomal.finished (Dispatcher.polynomal s) = false ->
   Dispatcher.position (Dispatcher.tick cfg i s) = Dispatcher.position s)
  /\ (Polynomal.finished (Dispatcher.polynomal s) = true ->
      Dispatcher.position (Dispatcher.tick cfg i s)
      = imap (fun idx p =>
                Signal.wrap 64
                  (p + Signal.get
                         (Polynomal.totalsteps cfg (Dispatcher.polynomal s))
                         idx))
             (Dispatcher.position s)
      /\ Polynomal.finished
           (Dispatcher.polynomal (Dispatcher.tick cfg i s)) = false).
Proof.
  intros Hreach. rewrite position_tick, polynomal_tick.
  unfold Dispatcher.next_position. split.
  - intros Hfin. rewrite Hfin, andb_false_r. reflexivity.
  - intros Hfin.
    assert (Hd : Dispatcher.pol_finished_d s = false).
    { destruct (Dispatcher.pol_finished_d s) eqn:Ed; [|reflexivity].
      pose proof (finished_edge cfg s Hreach Ed). congruence. }
    rewrite Hd, Hfin. split; [reflexivity|].
    destruct (reachable_handshake cfg _ (reachable_polynomal cfg s Hreach))
      as (_ & Hf & _).
    specialize (Hf Hfin). unfold Polynomal.tick. rewrite Hf.
    destruct (Polynomal.start (Dispatcher.polynomal_inputs s)); reflexivity.
Qed.

(** X11. The header word of a MOVE: with the opcode in the low byte and
    a tick limit that fits the tick counter above it, PARSEHEAD goes to
    MOVE_POLYNOMAL with that tick limit, the coefficient counter at 0
    and the read enable low, and raises no error. *)
Theorem X11_move_header_decoded
  (cfg : Config) (s : Dispatcher.t) (i : Dispatcher.inputs) (limit : Z) :
  Dispatcher.dispatcher s = Dispatcher.PARSEHEAD ->
  0 <= MOVE cfg < 2 ^ 8 ->
  0 <= limit < 2 ^ Polynomal.ticks_width cfg ->
  Dispatcher.read_data i = MOVE cfg + 2 ^ 8 * limit ->
  let s1 := Dispatcher.tick cfg i s in
  Dispatcher.dispatcher s1 = Dispatcher.MOVE_POLYNOMAL
  /\ Dispatcher.ticklimit s1 = limit
  /\ Dispatcher.coeffcnt s1 = 0
  /\ Dispatcher.read_en s1 = false
  /\ Dispatcher.dispatcherror s1 = Dispatcher.dispatcherror s.
Proof.
  intros Hfsm Hop Hlimit Hdata s1. subst s1.
  destruct (slice_header (MOVE cfg) limit Hop) as [Hlow Hhigh].
  unfold Dispatcher.tick. rewrite Hfsm.
  unfold Dispatcher.opcode, Dispatcher.header_ticks.
  rewrite Hdata, Hlow, Hhigh, Z.eqb_refl. cbv zeta.
  cbn [Dispatcher.dispatcher Dispatcher.ticklimit Dispatcher.coeffcnt
       Dispatcher.read_en Dispatcher.dispatcherror].
  rewrite trunc_small by exact Hlimit.
  repeat split; reflexivity.
Qed.

(** X12. The coefficient words of a MOVE: from MOVE_POLYNOMAL with the
    counter at 0, two edges per word for [3 * motors] words leave the
    words in [polynomal.coeff] in the order read, each as a signed
    64-bit value; the two edges after that raise [start] and the read
    commit together, with the coefficients in place, and the next edge
    lowers both. *)
Theorem X12_coefficients_loaded_in_order
  (cfg : Config) (s : Dispatcher.t)
  (pairs : list (Dispatcher.inputs * Dispatcher.inputs))
  (j k l : Dispatcher.inputs) :
  Dispatcher.dispatcher s = Dispatcher.MOVE_POLYNOMAL ->
  Dispatcher.read_en s = false ->
  Dispatcher.coeffcnt s = 0 ->
  length (Dispatcher.coeff s) = Dispatcher.ncoeff cfg ->
  length pairs = Dispatcher.ncoeff cfg ->
  let s1 := Dispatcher.run cfg (Dispatcher.word_edges pairs) s in
  let s2 := Dispatcher.tick cfg k (Dispatcher.tick cfg j s1) in
  Dispatcher.dispatcher s1 = Dispatcher.MOVE_POLYNOMAL
  /\ Dispatcher.coeff s1 = Dispatcher.stored pairs
  /\ Dispatcher.dispatcher s2 = Dispatcher.WAIT_INSTRUCTION
  /\ Dispatcher.coeff s2 = Dispatcher.stored pairs
  /\ Dispatcher.ticklimit s2 = Dispatcher.ticklimit s
  /\ Dispatcher.start s2 = true
  /\ Dispatcher.read_commit s2 = true
  /\ Dispatcher.read_en s2 = false
  /\ Dispatcher.start (Dispatcher.tick cfg l s2) = false
  /\ Dispatcher.read_commit (Dispatcher.tick cfg l s2) = false.
Proof.
  intros Hfsm Hen Hcnt Hco Hlen s1 s2.
  destruct (words_from cfg pairs s 0%nat Hfsm Hen Hcnt ltac:(simpl; lia) Hco)
    as (A1 & A2 & A3 & A4 & A5 & _).
  fold s1 in A1, A2, A3, A4, A5.
  rewrite take_0, drop_ge, app_nil_r in A4 by (simpl; lia).
  simpl in A4. simpl in A3. rewrite Hlen in A3.
  assert (B : Dispatcher.dispatcher (Dispatcher.tick cfg j s1)
              = Dispatcher.MOVE_POLYNOMAL
              /\ Dispatcher.read_en (Dispatcher.tick cfg j s1) = true
              /\ Dispatcher.coeffcnt (Dispatcher.tick cfg j s1)
                 = Z.of_nat (Dispatcher.ncoeff cfg)
              /\ Dispatcher.coeff (Dispatcher.tick cfg j s1)
                 = Dispatcher.stored pairs
              /\ Dispatcher.ticklimit (Dispatcher.tick cfg j s1)
                 = Dispatcher.ticklimit s).
  { unfold Dispatcher.tick. rewrite A1, A2.
    cbv zeta. cbn [negb Dispatcher.dispatcher Dispatcher.read_en
                   Dispatcher.coeffcnt Dispatcher.coeff Dispatcher.ticklimit].
    repeat split; assumption. }
  destruct B as (B1 & B2 & B3 & B4 & B5).
  assert (C : Dispatcher.dispatcher s2 = Dispatcher.WAIT_INSTRUCTION
              /\ Dispatcher.coeff s2 = Dispatcher.stored pairs
              /\ Dispatcher.ticklimit s2 = Dispatcher.ticklimit s
              /\ Dispatcher.start s2 = true
              /\ Dispatcher.read_commit s2 = true
              /\ Dispatcher.read_en s2 = false).
  { subst s2. set (sj := Dispatcher.tick cfg j s1) in *.
    unfold Dispatcher.tick. rewrite B1, B2, B3.
    rewrite Z.ltb_irrefl. cbv zeta.
    cbn [negb Dispatcher.dispatcher Dispatcher.read_en Dispatcher.coeff
         Dispatcher.ticklimit Dispatcher.start Dispatcher.read_commit].
    repeat split; try reflexivity; assumption. }
  destruct C as (C1 & C2 & C3 & C4 & C5 & C6).
  repeat split; try assumption.
  - unfold Dispatcher.tick. rewrite C1.
    destruct (negb (Dispatcher.empty l)
              && SPIParser.execute (Dispatcher.parser s2)
              && negb (Polynomal.busy (Dispatcher.polynomal s2)));
      reflexivity.
  - unfold Dispatcher.tick. rewrite C1.
    destruct (negb (Dispatcher.empty l)
              && SPIParser.execute (Dispatcher.parser s2)
              && negb (Polynomal.busy (Dispatcher.polynomal s2)));
      reflexivity.
Qed.

Section BeforeStart.
Import Dispatcher.
Context (cfg : Config).

Lemma execute_stays_off (i : SPIParser.inputs) (s : SPIParser.t) :
  SPIParser.execute s = false ->
  SPIParser.command_ready i = false
  \/ SPIParser.command i <> COMMANDS.START ->
  SPIParser.execute (SPIParser.tick cfg i s) = false.
Proof.
  intros Hex Hno. unfold SPIParser.tick.
  destruct (SPIParser.parser s); [reflexivity| | |].
  - destruct (SPIParser.command_ready i) eqn:Er; [|exact Hex].
    destruct Hno as [Hno|Hno]; [discriminate|].
    destruct (SPIParser.command i); try exact Hex;
      try reflexivity. congruence.
  - destruct (SPIParser.word_complete i); exact Hex.
  - destruct (bytesinmove cfg <=? SPIParser.bytesreceived s); exact Hex.
Qed.

Lemma idle_reset : idle cfg (reset cfg).
Proof.
  unfold idle. simpl.
  repeat split; try reflexivity; try discriminate. left. reflexivity.
Qed.

Lemma idle_tick (i : inputs) (s : t) :
  idle cfg s -> no_start i -> idle cfg (tick cfg i s).
Proof.
  intros (Hex & Hfsm & Hen & Hst & Hrc & Herr & Hrun & Hbusy & Hfin & Hpos)
         Hno.
  unfold idle.
  rewrite parser_tick, polynomal_tick, position_tick.
  assert (Hpol : Polynomal.polynomen
                   (Polynomal.tick cfg (polynomal_inputs s) (polynomal s))
                 <> Polynomal.RUNNING
                 /\ Polynomal.busy
                      (Polynomal.tick cfg (polynomal_inputs s) (polynomal s))
                    = false
                 /\ Polynomal.finished
                      (Polynomal.tick cfg (polynomal_inputs s) (polynomal s))
                    = false).
  { unfold Polynomal.tick.
    destruct (Polynomal.polynomen (polynomal s)) eqn:Ep.
    - repeat split; try reflexivity; try discriminate.
    - cbn [polynomal_inputs Polynomal.start]. rewrite Hst.
      repeat split; try reflexivity; try assumption; try discriminate.
    - congruence. }
  destruct Hpol as (P1 & P2 & P3).
  split; [apply execute_stays_off; assumption|].
  unfold next_position. rewrite Hfin, andb_false_r.
  unfold tick. cbv zeta. rewrite Hex, andb_false_r. cbn [andb].
  destruct Hfsm as [-> | ->];
    cbn [dispatcher read_en start read_commit dispatcherror];
    repeat split; try assumption; try reflexivity; auto.
Qed.

Lemma idle_run (ins : list inputs) :
  Forall no_start ins -> idle cfg (run cfg ins (reset cfg)).
Proof.
  induction ins as [|i ins IH] using rev_ind; intros Hall.
  - apply idle_reset.
  - apply Forall_app in Hall. destruct Hall as [Hins Hi].
    rewrite dispatcher_run_snoc. apply idle_tick.
    + apply IH. exact Hins.
    + inversion Hi. assumption.
Qed.

End BeforeStart.

(** X13. Nothing is dispatched before START: along every run from
    reset in which no START command is taken, [execute] stays off, the
    dispatcher never leaves WAIT_INSTRUCTION, the read enable, the read
    commit and [start] stay low, the integrator never runs, and the
    positions stay 0, whatever the queue holds. *)
Theorem X13_nothing_dispatched_before_start
  (cfg : Config) (ins : list Dispatcher.inputs) :
  Forall Dispatcher.no_start ins ->
  let s := Dispatcher.run cfg ins (Dispatcher.reset cfg) in
  SPIParser.execute (Dispatcher.parser s) = false
  /\ (Dispatcher.dispatcher s = Dispatcher.RESET
      \/ Dispatcher.dispatcher s = Dispatcher.WAIT_INSTRUCTION)
  /\ Dispatcher.read_en s = false
  /\ Dispatcher.read_commit s = false
  /\ Dispatcher.start s = false
  /\ Polynomal.busy (Dispatcher.polynomal s) = false
  /\ Dispatcher.position s = replicate (motors cfg) 0.
Proof.
  intros Hall s.
  destruct (idle_run cfg ins Hall)
    as (H1 & H2 & H3 & H4 & H5 & _ & _ & H8 & _ & H10).
  repeat split; assumption.
Qed.

(** X14. A limit switch masks the step pulse and nothing else: the
    step pin of a stepper is low while its limit input is high and is
    the integrator's step output otherwise, and the registers of the
    integrator and the positions after the edge do not depend on the
    limit inputs or on anything else on the bus at that edge. *)
Theorem X14_limit_masks_step_only
  (cfg : Config) (i i' : Dispatcher.inputs) (s : Dispatcher.t) (idx : nat) :
  (Dispatcher.limit i !! idx = Some true ->
   Dispatcher.stepper_step cfg i s !! idx = Some false)
  /\ (Dispatcher.limit i !! idx = Some false ->
      Dispatcher.stepper_step cfg i s !! idx
      = Some (Signal.getb (Polynomal.step cfg (Dispatcher.polynomal s)) idx))
  /\ Dispatcher.polynomal (Dispatcher.tick cfg i s)
     = Dispatcher.polynomal (Dispatcher.tick cfg i' s)
  /\ Dispatcher.position (Dispatcher.tick cfg i s)
     = Dispatcher.position (Dispatcher.tick cfg i' s).
Proof.
  unfold Dispatcher.stepper_step. rewrite list_lookup_imap.
  split; [|split; [|split]].
  - intros H. rewrite H. simpl. rewrite andb_false_r. reflexivity.
  - intros H. rewrite H. simpl. rewrite andb_true_r. reflexivity.
  - rewrite !polynomal_tick. reflexivity.
  - rewrite !position_tick. reflexivity.
Qed.

(** ** A move, through the whole design *)
Section RunningEdges.
Import Signal Polynomal.
Context (cfg : Config) (i : inputs).
Hypothesis divider_pos : 1 <= divider cfg.
Hypothesis ticklimit_fits : 0 <= ticklimit i < 2 ^ ticks_width cfg.

(** Every edge of a move before the finishing one: the integrator is
    RUNNING, [ticks] and [cntr] are quotient and remainder of the
    number of edges by the divider, [busy] and [finished] hold. *)
Lemma running_edges (m : nat) (s : t) :
  polynomen s = RUNNING -> ticks s = 0 -> cntr s = 0 ->
  Z.of_nat m <= ticklimit i * divider cfg ->
  polynomen (run cfg m i s) = RUNNING
  /\ ticks (run cfg m i s) = Z.of_nat m / divider cfg
  /\ cntr (run cfg m i s) = Z.of_nat m mod divider cfg
  /\ busy (run cfg m i s) = busy s
  /\ finished (run cfg m i s) = finished s.
Proof.
  intros Hfsm Hticks Hcntr. induction m as [|m IH]; intros Hm.
  - simpl. rewrite Z.div_0_l, Z.mod_0_l by lia.
    repeat split; assumption.
  - destruct IH as (I1 & I2 & I3 & I4 & I5); [lia|].
    replace (S m) with (m + 1)%nat by lia. rewrite run_add.
    set (sm := run cfg m i s) in *. simpl run.
    set (n := Z.of_nat m) in *.
    assert (Hn : Z.of_nat (m + 1) = n + 1) by (subst n; lia).
    rewrite Hn.
    pose proof (Z.div_mod n (divider cfg) ltac:(lia)) as Hdm.
    pose proof (Z.mod_pos_bound n (divider cfg) ltac:(lia)) as Hr.
    assert (Hq : n / divider cfg < ticklimit i).
    { apply Z.div_lt_upper_bound; [lia|]. nia. }
    assert (Hq0 : 0 <= n / divider cfg) by (apply Z.div_pos; lia).
    destruct (Z_lt_le_dec (n mod divider cfg) (divider cfg - 1)) as [Hlt|Hge].
    + assert (Hstep : tick cfg i sm
                      = {| polynomen := RUNNING;
                           cntr := cntr sm + 1;
                           ticks := ticks sm;
                           cntrs := cntrs sm;
                           counter_d := next_counter_d cfg sm;
                           dir := next_dir cfg sm;
                           busy := busy sm;
                           finished := finished sm |}).
      { unfold tick. rewrite I1.
        replace (ticks sm <? ticklimit i) with true
          by (symmetry; apply Z.ltb_lt; lia).
        replace (divider cfg - 1 <=? cntr sm) with false
          by (symmetry; apply Z.leb_gt; lia).
        simpl. rewrite trunc_small; [reflexivity|].
        pose proof (range_width_bound (divider cfg) ltac:(lia)).
        unfold cntr_width. lia. }
      rewrite Hstep. cbn [polynomen ticks cntr busy finished].
      rewrite I2, I3, I4, I5. repeat split; try reflexivity.
      * apply (Z.div_unique (n + 1) (divider cfg) (n / divider cfg)
                 (n mod divider cfg + 1)); lia.
      * apply (Z.mod_unique (n + 1) (divider cfg) (n / divider cfg)
                 (n mod divider cfg + 1)); lia.
    + rewrite (real_time_tick cfg i ticklimit_fits sm I1)
        by lia.
      cbn [polynomen ticks cntr busy finished].
      rewrite I2, I4, I5. repeat split; try reflexivity.
      * apply (Z.div_unique (n + 1) (divider cfg) (n / divider cfg + 1) 0); lia.
      * apply (Z.mod_unique (n + 1) (divider cfg) (n / divider cfg + 1) 0); lia.
Qed.

End RunningEdges.

Section MoveThroughDispatcher.
Import Signal Dispatcher.
Context (cfg : Config).

(** While the integrator is busy the dispatcher waits: it stays in
    WAIT_INSTRUCTION whatever the queue shows, its registers hold, the
    integrator takes its edges with the inputs held, and the positions
    stay while [finished] is low. *)
Lemma busy_hold (mid : list inputs) :
  forall s,
    dispatcher s = WAIT_INSTRUCTION -> start s = false ->
    (forall n, (n < length mid)%nat ->
       Polynomal.busy
         (Polynomal.run cfg n (polynomal_inputs s) (polynomal s)) = true
       /\ Polynomal.finished
            (Polynomal.run cfg n (polynomal_inputs s) (polynomal s))
          = false) ->
    dispatcher (run cfg mid s) = WAIT_INSTRUCTION
    /\ start (run cfg mid s) = false
    /\ coeff (run cfg mid s) = coeff s
    /\ ticklimit (run cfg mid s) = ticklimit s
    /\ polynomal (run cfg mid s)
       = Polynomal.run cfg (length mid) (polynomal_inputs s) (polynomal s)
    /\ position (run cfg mid s) = position s.
Proof.
  induction mid as [|i r IH]; intros s Hfsm Hstart Hbusy.
  - simpl. repeat split; try reflexivity; assumption.
  - destruct (Hbusy 0%nat ltac:(simpl; lia)) as [Hb Hf].
    simpl in Hb, Hf.
    assert (Hedge : dispatcher (tick cfg i s) = WAIT_INSTRUCTION
                    /\ start (tick cfg i s) = false
                    /\ coeff (tick cfg i s) = coeff s
                    /\ ticklimit (tick cfg i s) = ticklimit s).
    { unfold tick. rewrite Hfsm, Hb. cbv zeta.
      rewrite andb_false_r. repeat split; reflexivity. }
    destruct Hedge as (E1 & E2 & E3 & E4).
    assert (Hin : polynomal_inputs (tick cfg i s) = polynomal_inputs s).
    { unfold polynomal_inputs. rewrite E2, E3, E4, Hstart. reflexivity. }
    rewrite dispatcher_run_cons.
    destruct (IH (tick cfg i s) E1 E2) as (I1 & I2 & I3 & I4 & I5 & I6).
    { intros n Hn. rewrite Hin, polynomal_tick.
      apply (Hbusy (S n)). simpl. lia. }
    rewrite I1, I2, I3, I4, I5, I6, Hin, polynomal_tick, position_tick, E3, E4.
    unfold next_position. rewrite Hf, andb_false_r.
    repeat split; reflexivity.
Qed.

(** The edge on which the integrator takes [start]. *)
Lemma start_edge (i : Polynomal.inputs) (p : Polynomal.t) (motor : nat) :
  Polynomal.polynomen p = Polynomal.WAIT_START ->
  Polynomal.start i = true ->
  (motor < motors cfg)%nat ->
  length (Polynomal.cntrs p) = (Polynomal.order * motors cfg)%nat ->
  let p1 := Polynomal.tick cfg i p in
  Polynomal.polynomen p1 = Polynomal.RUNNING
  /\ Polynomal.busy p1 = true
  /\ Polynomal.finished p1 = false
  /\ Polynomal.ticks p1 = Polynomal.ticks p
  /\ Polynomal.cntr p1 = Polynomal.cntr p
  /\ length (Polynomal.cntrs p1) = (Polynomal.order * motors cfg)%nat
  /\ get (Polynomal.cntrs p1) (motor * Polynomal.order) = 0
  /\ get (Polynomal.cntrs p1) (motor * Polynomal.order + 1)
     = get (Polynomal.cntrs p) (motor * Polynomal.order + 1)
  /\ get (Polynomal.cntrs p1) (motor * Polynomal.order + 2)
     = get (Polynomal.cntrs p) (motor * Polynomal.order + 2).
Proof.
  intros Hfsm Hstart Hm Hlen p1. subst p1.
  unfold Polynomal.tick. rewrite Hfsm, Hstart.
  cbn [Polynomal.polynomen Polynomal.busy Polynomal.finished
       Polynomal.ticks Polynomal.cntr Polynomal.cntrs].
  unfold get, Polynomal.clear_position.
  rewrite length_clear_fold, clear_fold_position.
  - rewrite !clear_fold_other.
    + repeat split; try reflexivity. exact Hlen.
    + unfold Polynomal.order.
      replace (motor * 3 + 2)%nat with (2 + motor * 3)%nat by lia.
      rewrite Nat.Div0.mod_add. discriminate.
    + unfold Polynomal.order.
      replace (motor * 3 + 1)%nat with (1 + motor * 3)%nat by lia.
      rewrite Nat.Div0.mod_add. discriminate.
  - unfold Polynomal.axes. apply in_seq. lia.
  - rewrite Hlen. unfold Polynomal.order. lia.
Qed.

Lemma get_imap (f : nat -> Z -> Z) (l : list Z) (k : nat) :
  (k < length l)%nat -> get (imap f l) k = f k (get l k).
Proof.
  intros Hk. unfold get. rewrite list_lookup_imap.
  destruct (lookup_lt_is_Some_2 l k Hk) as [x Hx].
  rewrite Hx. reflexivity.
Qed.

End MoveThroughDispatcher.

(** X15. A move through the whole design.  The dispatcher has raised
    [start] with the tick limit [T] and the coefficients [(a, b, c)] of
    an axis in place, the integrator waits with its difference
    accumulators at 0, and the queue is empty at the edge that takes
    [start].  Then, whatever the bus and the queue show afterwards,
    [T * divider + 3] edges later the position of the axis has grown by
    [(a*T + b*T^2 + c*T^3) >> (BIT_SHIFT + 1)], in 64 bits, provided the
    polynomial value is within the accumulator's width. *)
Theorem X15_move_adds_displacement
  (cfg : Config) (s : Dispatcher.t) (i1 i2 i3 : Dispatcher.inputs)
  (mid : list Dispatcher.inputs) (motor : nat) :
  let p := Dispatcher.polynomal s in
  let T := Dispatcher.ticklimit s in
  let a := Signal.get (Dispatcher.coeff s) (motor * Polynomal.order) in
  let b := Signal.get (Dispatcher.coeff s) (motor * Polynomal.order + 1) in
  let c := Signal.get (Dispatcher.coeff s) (motor * Polynomal.order + 2) in
  let displacement := Polynomal.polynomial a b c T in
  1 <= divider cfg -> 0 <= BIT_SHIFT cfg -> 0 <= MOVE_TICKS cfg ->
  0 <= T < 2 ^ Polynomal.ticks_width cfg ->
  (motor < motors cfg)%nat ->
  Dispatcher.dispatcher s = Dispatcher.WAIT_INSTRUCTION ->
  Dispatcher.start s = true ->
  Dispatcher.empty i1 = true ->
  Polynomal.polynomen p = Polynomal.WAIT_START ->
  Polynomal.finished p = false ->
  Polynomal.ticks p = 0 -> Polynomal.cntr p = 0 ->
  length (Polynomal.cntrs p) = (Polynomal.order * motors cfg)%nat ->
  Signal.get (Polynomal.cntrs p) (motor * Polynomal.order + 1) = 0 ->
  Signal.get (Polynomal.cntrs p) (motor * Polynomal.order + 2) = 0 ->
  length (Dispatcher.position s) = motors cfg ->
  length mid = (Z.to_nat T * Z.to_nat (divider cfg))%nat ->
  - 2 ^ Polynomal.max_bits cfg <= displacement < 2 ^ Polynomal.max_bits cfg ->
  Signal.get
    (Dispatcher.position (Dispatcher.run cfg (i1 :: mid ++ [i2; i3]) s))
    motor
  = Signal.wrap 64
      (Signal.get (Dispatcher.position s) motor
       + Z.shiftr displacement (BIT_SHIFT cfg + 1)).
Proof.
  intros p T a b c displacement Hdiv Hbs Hmt HT Hm Hfsm Hstart Hempty
         Hpfsm Hpfin Hpticks Hpcntr Hplen Hp1 Hp2 Hposlen Hmid Hrange.
  (* the edge that takes [start] *)
  set (s1 := Dispatcher.tick cfg i1 s).
  assert (E : Dispatcher.dispatcher s1 = Dispatcher.WAIT_INSTRUCTION
              /\ Dispatcher.start s1 = false
              /\ Dispatcher.coeff s1 = Dispatcher.coeff s
              /\ Dispatcher.ticklimit s1 = Dispatcher.ticklimit s).
  { subst s1. unfold Dispatcher.tick. rewrite Hfsm, Hempty.
    cbv zeta. cbn [negb andb]. repeat split; reflexivity. }
  destruct E as (E1 & E2 & E3 & E4).
  assert (Epos : Dispatcher.position s1 = Dispatcher.position s).
  { subst s1. rewrite position_tick. unfold Dispatcher.next_position.
    fold p. rewrite Hpfin, andb_false_r. reflexivity. }
  set (inp := Dispatcher.polynomal_inputs s1).
  assert (Einp : Polynomal.coeff inp = Dispatcher.coeff s
                 /\ Polynomal.ticklimit inp = T).
  { subst inp. unfold Dispatcher.polynomal_inputs.
    cbn [Polynomal.coeff Polynomal.ticklimit].
    rewrite E3, E4. split; reflexivity. }
  destruct Einp as [Ecoeff Elimit].
  destruct (start_edge cfg (Dispatcher.polynomal_inputs s) p motor Hpfsm
              Hstart Hm Hplen)
    as (P1 & P2 & P3 & P4 & P5 & P6 & P7 & P8 & P9).
  assert (Ep1 : Dispatcher.polynomal s1
                = Polynomal.tick cfg (Dispatcher.polynomal_inputs s) p).
  { subst s1. apply polynomal_tick. }
  set (p1 := Polynomal.tick cfg (Dispatcher.polynomal_inputs s) p) in *.
  rewrite Hpticks in P4. rewrite Hpcntr in P5.
  rewrite Hp1 in P8. rewrite Hp2 in P9.
  assert (HT' : 0 <= Polynomal.ticklimit inp
                < 2 ^ Polynomal.ticks_width cfg) by (rewrite Elimit; exact HT).
  (* the edges of the move *)
  assert (Hrun : forall n, (n <= length mid)%nat ->
            Polynomal.busy (Polynomal.run cfg n inp p1) = true
            /\ Polynomal.finished (Polynomal.run cfg n inp p1) = false).
  { intros n Hn.
    destruct (running_edges cfg inp Hdiv HT' n p1 P1 P4 P5)
      as (_ & _ & _ & R4 & R5).
    - rewrite Elimit. rewrite Hmid in Hn. nia.
    - rewrite R4, R5. split; assumption. }
  destruct (busy_hold cfg mid s1 E1 E2) as (B1 & B2 & B3 & B4 & B5 & B6).
  { intros n Hn. rewrite Ep1. fold inp. apply Hrun. lia. }
  rewrite Ep1 in B5. fold inp in B5.
  set (sT := Dispatcher.run cfg mid s1) in *.
  destruct (after_real_ticks cfg inp motor Hdiv HT' Hm (Z.to_nat T) p1
              P1 P4 P5 P6 P7 P8 P9)
    as (A1 & A2 & _ & _ & _ & A6 & _).
  { rewrite Elimit. lia. }
  rewrite <- Hmid, <- B5, Ecoeff, Z2Nat.id in A6 by lia.
  rewrite <- Hmid, <- B5 in A1, A2. rewrite Z2Nat.id in A2 by lia.
  fold a b c displacement in A6.
  assert (Hw : Signal.wrap (Polynomal.cntrs_width cfg) displacement
               = displacement).
  { apply wrap_small; [apply cntrs_width_pos|].
    unfold Polynomal.cntrs_width.
    replace (Polynomal.max_bits cfg + 1 - 1) with (Polynomal.max_bits cfg)
      by lia.
    exact Hrange. }
  rewrite Hw in A6.
  assert (HfT : Polynomal.finished (Dispatcher.polynomal sT) = false).
  { rewrite B5. apply Hrun. lia. }
  assert (HinT : Dispatcher.polynomal_inputs sT = inp).
  { subst inp. unfold Dispatcher.polynomal_inputs.
    rewrite B2, B3, B4, E2. reflexivity. }
  (* the finishing edge and the edge of the adder *)
  change (Dispatcher.run cfg (i1 :: mid ++ [i2; i3]) s)
    with (Dispatcher.run cfg (mid ++ [i2; i3]) s1).
  unfold Dispatcher.run. rewrite foldl_app. fold (Dispatcher.run cfg mid s1).
  fold sT. simpl foldl.
  set (sf := Dispatcher.tick cfg i2 sT).
  assert (F : Dispatcher.polynomal sf
              = Polynomal.tick cfg inp (Dispatcher.polynomal sT)
              /\ Dispatcher.position sf = Dispatcher.position s
              /\ Dispatcher.pol_finished_d sf = false).
  { subst sf. rewrite polynomal_tick, position_tick, finished_d_tick, HinT.
    unfold Dispatcher.next_position. rewrite HfT, andb_false_r.
    repeat split; try reflexivity. rewrite B6. exact Epos. }
  destruct F as (F1 & F2 & F3).
  rewrite (finishing_edge cfg inp (Dispatcher.polynomal sT) A1)
    in F1 by (rewrite A2, Elimit; reflexivity).
  rewrite position_tick. unfold Dispatcher.next_position.
  rewrite F3, F1, F2. cbn [Polynomal.finished negb andb].
  rewrite get_imap by lia. f_equal. f_equal.
  rewrite get_totalsteps by exact Hm.
  cbn [Polynomal.cntrs]. rewrite A6.
  apply totalsteps_fits; assumption.
Qed.

(** ** The further properties on the test bench *)

(** When the first of the two moves is done, [finished] is shown in
    WAIT_START and is gone after the next edge. *)
Lemma X1_witness :
  Polynomal.polynomen Bench.first_done = Polynomal.WAIT_START
  /\ Polynomal.finished
       (Polynomal.tick Bench.cfg (Bench.move false 0 0 0 0) Bench.first_done)
     = false.
Proof.
  assert (Hreach : Polynomal.reachable Bench.cfg Bench.first_done).
  { exists Bench.first_move_edges. vm_compute. reflexivity. }
  destruct (X1_busy_finished_handshake Bench.cfg Bench.first_done
              (Bench.move false 0 0 0 0) Hreach)
    as (_ & Hfin & _).
  exact (Hfin ltac:(bench)).
Defined.

(** The start of the second of the two moves. *)
Lemma X2_witness :
  let s1 := Polynomal.tick Bench.cfg (Bench.move true (2 ^ 41) 0 0 4)
              Bench.first_done in
  Signal.get (Polynomal.cntrs s1) (0 * Polynomal.order) = 0
  /\ Signal.get (Polynomal.cntrs s1) (0 * Polynomal.order + 1)
     = Signal.get (Polynomal.cntrs Bench.first_done) (0 * Polynomal.order + 1).
Proof.
  destruct (X2_start_clears_position_only Bench.cfg
              (Bench.move true (2 ^ 41) 0 0 4) Bench.first_done 0
              ltac:(bench) ltac:(bench) ltac:(bench) ltac:(bench))
    as (_ & _ & _ & H0 & _ & H1 & _).
  exact (conj H0 H1).
Defined.

(** The second axis, with the other two axes different. *)
Lemma X3_witness :
  Signal.get (Polynomal.advance Bench.cfg Bench.some_coeff Bench.some_cntrs)
             (1 * Polynomal.order + 0)
  = Signal.get
      (Polynomal.advance Bench.cfg Bench.other_coeff Bench.other_cntrs)
      (1 * Polynomal.order + 0).
Proof.
  apply (X3_axes_do_not_interact Bench.cfg); try (bench; fail).
  - intros d Hd. do 3 (destruct d as [|d]; [reflexivity|]). lia.
  - intros d Hd. do 3 (destruct d as [|d]; [reflexivity|]). lia.
Defined.

(** The direction of the first axis two edges into the fifth period of
    the slow move. *)
Lemma X4_witness :
  let s1 := Polynomal.tick Bench.cfg Bench.slow Bench.after_four in
  let s2 := Polynomal.tick Bench.cfg Bench.slow s1 in
  let before :=
    Signal.get (Polynomal.cntrs Bench.after_four) (0 * Polynomal.order) in
  let now := Signal.get (Polynomal.cntrs s1) (0 * Polynomal.order) in
  Signal.getb (Polynomal.dir s2) 0
  = if before >? now then false
    else if before <? now then true
    else Signal.getb (Polynomal.dir s1) 0.
Proof.
  exact (X4_direction_follows_change Bench.cfg Bench.slow Bench.slow
           Bench.after_four 0 ltac:(bench) ltac:(bench)).
Defined.

(** The outputs of the first axis after the fifth tick of the slow move. *)
Lemma X5_witness :
  Z.shiftr (Signal.get (Polynomal.cntrs Bench.after_five)
                       (0 * Polynomal.order))
           (BIT_SHIFT Bench.cfg)
  = 2 * Signal.get (Polynomal.totalsteps Bench.cfg Bench.after_five) 0
    + Z.b2z (Signal.getb (Polynomal.step Bench.cfg Bench.after_five) 0).
Proof.
  assert (Hreach : Polynomal.reachable Bench.cfg Bench.after_five).
  { exists Bench.slow_edges. vm_compute. reflexivity. }
  exact (X5_totalsteps_counts_step_periods Bench.cfg Bench.after_five 0
           Hreach ltac:(bench) ltac:(bench) ltac:(bench)).
Defined.

(** The status register of the executing parser. *)
Lemma X6_witness :
  Z.testbit (SPIParser.state Bench.executing) 3 = false
  /\ Z.testbit
       (SPIParser.state
          (SPIParser.tick Bench.cfg (Bench.quiet_bus 100 0) Bench.executing))
       STATE.PARSING
     = SPIParser.execute Bench.executing.
Proof.
  assert (Hreach : SPIParser.reachable Bench.cfg Bench.executing).
  { exists [Bench.quiet_bus 100 0; Bench.send COMMANDS.START 100 0;
            Bench.quiet_bus 100 0].
    reflexivity. }
  destruct (X6_status_register_bits Bench.cfg Bench.executing
              (Bench.quiet_bus 100 0) Hreach)
    as (Hres & Hpar & _).
  exact (conj (Hres 3 ltac:(lia)) Hpar).
Defined.

(** One word of the ten of an instruction is counted. *)
Lemma X7_witness :
  exists k,
    SPIParser.bytesreceived
      (SPIParser.run Bench.cfg Bench.one_word Bench.waiting)
    = k * WORD_BYTES Bench.cfg
    /\ 0 <= k <= 10.
Proof.
  assert (Hreach : SPIParser.reachable Bench.cfg
                     (SPIParser.run Bench.cfg Bench.one_word Bench.waiting)).
  { exists (Bench.quiet_bus 100 0 :: Bench.one_word). reflexivity. }
  destruct (X7_counter_in_whole_words Bench.cfg 10 _
              ltac:(bench) ltac:(bench) ltac:(bench) Hreach)
    as (k & Hk & Hrange & _).
  exists k. exact (conj Hk Hrange).
Defined.

(** Three POSITION commands to the three-axis parser out of reset. *)
Lemma X8_witness :
  map SPIParser.word_to_send
      (SPIParser.trace Bench.cfg Bench.three_queries Bench.waiting)
  = imap (fun j q =>
            Signal.trunc (SPIParser.word_size Bench.cfg)
              (Signal.get (SPIParser.position q) j))
         Bench.three_queries.
Proof.
  apply (X8_position_queries_in_order Bench.cfg); try (bench; fail).
  repeat constructor.
Defined.

(** START twice on the test bench. *)
Lemma X9_witness :
  let i := Bench.send COMMANDS.START 100 0 in
  SPIParser.execute (SPIParser.tick Bench.cfg i Bench.waiting) = true
  /\ SPIParser.tick Bench.cfg i (SPIParser.tick Bench.cfg i Bench.waiting)
     = SPIParser.tick Bench.cfg (SPIParser.with_command COMMANDS.EMPTY i)
         (SPIParser.tick Bench.cfg i Bench.waiting).
Proof.
  destruct (X9_start_stop_idempotent Bench.cfg Bench.waiting
              (Bench.send COMMANDS.START 100 0) ltac:(bench) ltac:(bench))
    as [_ Hstart].
  exact (Hstart ltac:(bench)).
Defined.

(** The edge after the linear move of 4 steps has finished. *)
Lemma X10_witness :
  let s := Dispatcher.run Bench.cfg Bench.move_finishing
             (Dispatcher.reset Bench.cfg) in
  Dispatcher.position (Dispatcher.tick Bench.cfg (Bench.queued 0) s)
  = [4; 0; 0].
Proof.
  assert (Hreach : Dispatcher.reachable Bench.cfg
                     (Dispatcher.run Bench.cfg Bench.move_finishing
                        (Dispatcher.reset Bench.cfg))).
  { exists Bench.move_finishing. reflexivity. }
  destruct (X10_position_added_once_per_move Bench.cfg _ (Bench.queued 0)
              Hreach)
    as [_ Hadd].
  destruct (Hadd ltac:(bench)) as [Hpos _].
  cbv zeta. rewrite Hpos. vm_compute. reflexivity.
Defined.

(** The header of a MOVE of 4 ticks. *)
Lemma X11_witness :
  let s1 := Dispatcher.tick Bench.cfg (Bench.queued 1025)
              (Dispatcher.run Bench.cfg Bench.to_parsehead
                 (Dispatcher.reset Bench.cfg)) in
  Dispatcher.dispatcher s1 = Dispatcher.MOVE_POLYNOMAL
  /\ Dispatcher.ticklimit s1 = 4.
Proof.
  destruct (X11_move_header_decoded Bench.cfg
              (Dispatcher.run Bench.cfg Bench.to_parsehead
                 (Dispatcher.reset Bench.cfg))
              (Bench.queued 1025) 4
              ltac:(bench) ltac:(bench) ltac:(bench) ltac:(bench))
    as (H1 & H2 & _).
  exact (conj H1 H2).
Defined.

(** The nine coefficient words of the linear move. *)
Lemma X12_witness :
  let s1 := Dispatcher.run Bench.cfg
              (Dispatcher.word_edges Bench.linear_words) Bench.header_taken in
  let s2 := Dispatcher.tick Bench.cfg (Bench.queued 0)
              (Dispatcher.tick Bench.cfg (Bench.queued 0) s1) in
  Dispatcher.coeff s2 = Dispatcher.stored Bench.linear_words
  /\ Dispatcher.start s2 = true
  /\ Dispatcher.read_commit s2 = true.
Proof.
  destruct (X12_coefficients_loaded_in_order Bench.cfg Bench.header_taken
              Bench.linear_words (Bench.queued 0) (Bench.queued 0)
              (Bench.queued 0)
              ltac:(bench) ltac:(bench) ltac:(bench) ltac:(bench)
              ltac:(bench))
    as (_ & _ & _ & H4 & _ & H6 & H7 & _).
  exact (conj H4 (conj H6 H7)).
Defined.

(** Instructions in the queue and no START. *)
Lemma X13_witness :
  let s := Dispatcher.run Bench.cfg Bench.not_started
             (Dispatcher.reset Bench.cfg) in
  Dispatcher.read_en s = false /\ Dispatcher.start s = false.
Proof.
  assert (Hall : Forall Dispatcher.no_start Bench.not_started).
  { repeat constructor. }
  destruct (X13_nothing_dispatched_before_start Bench.cfg Bench.not_started
              Hall)
    as (_ & _ & H3 & _ & H5 & _).
  exact (conj H3 H5).
Defined.

(** A limit switch on the first axis. *)
Lemma X14_witness :
  Dispatcher.stepper_step Bench.cfg
    (Bench.bus false COMMANDS.EMPTY 0 true) Bench.move_loaded !! 0%nat
  = Some (Signal.getb
            (Polynomal.step Bench.cfg (Dispatcher.polynomal Bench.move_loaded))
            0).
Proof.
  destruct (X14_limit_masks_step_only Bench.cfg
              (Bench.bus false COMMANDS.EMPTY 0 true)
              (Bench.bus false COMMANDS.EMPTY 0 true) Bench.move_loaded 0)
    as (_ & Hfree & _).
  exact (Hfree ltac:(bench)).
Defined.

(** The linear move of 4 ticks, one step a tick, with more instructions
    waiting in the queue while it runs: the first axis ends 4 steps on. *)
Lemma X15_witness :
  Signal.get
    (Dispatcher.position
       (Dispatcher.run Bench.cfg
          (Bench.bus false COMMANDS.EMPTY 0 true
           :: Bench.move_edges ++ [Bench.queued 1025; Bench.queued 1025])
          Bench.move_loaded))
    0
  = 4.
Proof.
  rewrite (X15_move_adds_displacement Bench.cfg Bench.move_loaded
             (Bench.bus false COMMANDS.EMPTY 0 true) (Bench.queued 1025)
             (Bench.queued 1025) Bench.move_edges 0); bench.
Defined.

Section ReplyBits.
Import Signal.

Lemma high_byte_bit (st x : Z) (k : nat) :
  (k < 8)%nat ->
  getb (reversed 8 st ++ reversed 8 x) (15 - k) = Z.testbit x (Z.of_nat k).
Proof.
  intros Hk. do 8 (destruct k as [|k]; [reflexivity|]). lia.
Qed.

Lemma reply_fits (cfg : Config) (st x : Z) :
  2 <= WORD_BYTES cfg ->
  trunc (SPIParser.word_size cfg)
    (from_bits (reversed 8 st ++ reversed 8 x))
  = from_bits (reversed 8 st ++ reversed 8 x).
Proof.
  intros HW. apply trunc_small. split.
  - apply from_bits_nonneg.
  - eapply Z.lt_le_trans; [apply from_bits_bound|].
    change (Z.of_nat (length (reversed 8 st ++ reversed 8 x))) with 16.
    apply Z.pow_le_mono_r; unfold SPIParser.word_size; lia.
Qed.

End ReplyBits.

(** X16. [busy] is seen one edge late.  At the edge at which the
    integrator takes [start] it is not busy yet: with [execute] on and
    a word in the queue the dispatcher goes to PARSEHEAD while the
    integrator goes to RUNNING, and a MOVE header found at the next
    edge replaces the tick limit of the move that is running. *)
Theorem X16_next_header_taken_during_move
  (cfg : Config) (s : Dispatcher.t) (i j : Dispatcher.inputs) (limit : Z) :
  Dispatcher.dispatcher s = Dispatcher.WAIT_INSTRUCTION ->
  Dispatcher.start s = true ->
  Polynomal.polynomen (Dispatcher.polynomal s) = Polynomal.WAIT_START ->
  Polynomal.busy (Dispatcher.polynomal s) = false ->
  SPIParser.execute (Dispatcher.parser s) = true ->
  Dispatcher.empty i = false ->
  0 <= MOVE cfg < 2 ^ 8 ->
  0 <= limit < 2 ^ Polynomal.ticks_width cfg ->
  Dispatcher.read_data j = MOVE cfg + 2 ^ 8 * limit ->
  let s1 := Dispatcher.tick cfg i s in
  let s2 := Dispatcher.tick cfg j s1 in
  Dispatcher.dispatcher s1 = Dispatcher.PARSEHEAD
  /\ Dispatcher.read_en s1 = true
  /\ Polynomal.polynomen (Dispatcher.polynomal s1) = Polynomal.RUNNING
  /\ Polynomal.busy (Dispatcher.polynomal s1) = true
  /\ Dispatcher.ticklimit s1 = Dispatcher.ticklimit s
  /\ Dispatcher.dispatcher s2 = Dispatcher.MOVE_POLYNOMAL
  /\ Dispatcher.ticklimit s2 = limit.
Proof.
  intros Hfsm Hstart Hpfsm Hbusy Hex Hempty Hop Hlimit Hdata s1 s2.
  assert (E : Dispatcher.dispatcher s1 = Dispatcher.PARSEHEAD
              /\ Dispatcher.read_en s1 = true
              /\ Dispatcher.ticklimit s1 = Dispatcher.ticklimit s).
  { subst s1. unfold Dispatcher.tick. rewrite Hfsm, Hempty, Hex, Hbusy.
    cbv zeta. cbn [negb andb]. repeat split; reflexivity. }
  destruct E as (E1 & E2 & E3).
  assert (P : Polynomal.polynomen (Dispatcher.polynomal s1)
              = Polynomal.RUNNING
              /\ Polynomal.busy (Dispatcher.polynomal s1) = true).
  { subst s1. rewrite polynomal_tick. unfold Polynomal.tick.
    rewrite Hpfsm. cbn [Dispatcher.polynomal_inputs Polynomal.start].
    rewrite Hstart. split; reflexivity. }
  destruct P as [P1 P2].
  destruct (slice_header (MOVE cfg) limit Hop) as [Hlow Hhigh].
  assert (F : Dispatcher.dispatcher s2 = Dispatcher.MOVE_POLYNOMAL
              /\ Dispatcher.ticklimit s2 = limit).
  { subst s2. unfold Dispatcher.tick. rewrite E1.
    unfold Dispatcher.opcode, Dispatcher.header_ticks.
    rewrite Hdata, Hlow, Hhigh, Z.eqb_refl. cbv zeta.
    cbn [Dispatcher.dispatcher Dispatcher.ticklimit].
    rewrite trunc_small by exact Hlimit. split; reflexivity. }
  destruct F as [F1 F2].
  repeat split; assumption.
Qed.

(** X17. The limit switches in the reply word: in the whole design, the
    reply to a READ command shows the limit input of stepper [k] at bit
    [15 - k] of the word. *)
Theorem X17_reply_shows_limit_switches
  (cfg : Config) (s : Dispatcher.t) (i : Dispatcher.inputs) (k : nat) :
  2 <= WORD_BYTES cfg ->
  SPIParser.parser (Dispatcher.parser s) = SPIParser.WAIT_COMMAND ->
  Dispatcher.command_ready i = true ->
  Dispatcher.command i = COMMANDS.READ ->
  (k < 8)%nat ->
  Z.testbit
    (SPIParser.word_to_send (Dispatcher.parser (Dispatcher.tick cfg i s)))
    (Z.of_nat (15 - k))
  = Signal.getb (Dispatcher.limit i) k.
Proof.
  intros HW Hfsm Hready Hcmd Hk.
  rewrite parser_tick. unfold SPIParser.tick. rewrite Hfsm.
  cbn [Dispatcher.parser_inputs SPIParser.command_ready SPIParser.command].
  rewrite Hready, Hcmd. cbn [SPIParser.word_to_send].
  unfold SPIParser.word. cbn [SPIParser.pinstate].
  rewrite reply_fits by exact HW.
  rewrite testbit_from_bits, high_byte_bit by exact Hk.
  unfold Dispatcher.pinstate. apply testbit_from_bits.
Qed.

(** Two instructions back to back on the test bench. *)
Lemma X16_witness :
  let s1 := Dispatcher.tick Bench.cfg (Bench.queued 1025) Bench.move_loaded in
  let s2 := Dispatcher.tick Bench.cfg (Bench.queued (1 + 2 ^ 8 * 7)) s1 in
  Dispatcher.dispatcher s1 = Dispatcher.PARSEHEAD
  /\ Polynomal.busy (Dispatcher.polynomal s1) = true
  /\ Dispatcher.ticklimit s1 = Dispatcher.ticklimit Bench.move_loaded
  /\ Dispatcher.ticklimit s2 = 7.
Proof.
  destruct (X16_next_header_taken_during_move Bench.cfg Bench.move_loaded
              (Bench.queued 1025) (Bench.queued (1 + 2 ^ 8 * 7)) 7
              ltac:(bench) ltac:(bench) ltac:(bench) ltac:(bench)
              ltac:(bench) ltac:(bench) ltac:(bench) ltac:(bench)
              ltac:(bench))
    as (H1 & _ & _ & H4 & H5 & _ & H7).
  exact (conj H1 (conj H4 (conj H5 H7))).
Defined.

(** A READ with no limit switch closed. *)
Lemma X17_witness :
  Z.testbit
    (SPIParser.word_to_send
       (Dispatcher.parser
          (Dispatcher.tick Bench.cfg (Bench.bus true COMMANDS.READ 0 true)
             Bench.move_loaded)))
    (Z.of_nat (15 - 0))
  = Signal.getb
      (Dispatcher.limit (Bench.bus true COMMANDS.READ 0 true)) 0.
Proof.
  exact (X17_reply_shows_limit_switches Bench.cfg Bench.move_loaded
           (Bench.bus true COMMANDS.READ 0 true) 0
           ltac:(bench) ltac:(bench) ltac:(bench) ltac:(bench) ltac:(bench)).
Defined.
